(** * Threadsafe: sequential model of the striped hash [Map] and [Set]

    The containers of this repository are chained hash tables: a vector of
    buckets, each bucket a singly linked chain of nodes, one reader/writer
    lock per bucket and per node.  This development embeds the code of one
    thread running alone (every lock is free when it is requested, so the
    lock operations have no effect and are not represented) and proves the
    sequential properties of the three classes:

    - [Map]       the map with a [replace] flag and an entry counter;
    - [LegacyMap] the first version of the map (src/map.h), whose [Insert]
                  has no flag and returns nothing;
    - [HashSet]   the set (src/set.h).

    Integers of type [uint64_t] are values of [Z] with the wrap-around
    written out.  [hash_(key) % size_] with [size_ = 0] and an index outside
    [data_] are undefined in C++: the operations return [None] there.

    [Resize], [FastInsert], the move constructors and the move assignments
    are declared but cannot be instantiated: [FastInsert] initialises a
    [Node*] from a [std::unique_ptr<Node>], the move members copy the
    [std::atomic] counter, [Set::Resize] calls [FastInsert] with two
    arguments and [Set]'s move assignment compares two sets with [==].
    They have no behaviour and are not embedded. *)

From stdpp Require Import base option list strings.
From Stdlib Require Import ZArith Lia.

Local Open Scope Z_scope.

(** ** Machine integers *)

Definition uint64_mod : Z := 2 ^ 64.

(** [++count_] and [--count_] on a [std::atomic<uint64_t>]. *)
Definition incr64 (c : Z) : Z := (c + 1) mod uint64_mod.
Definition decr64 (c : Z) : Z := (c - 1) mod uint64_mod.

Definition is_uint64 (z : Z) : Prop := 0 <= z < uint64_mod.

(** What a walk of [Insert] over a chain ended with. *)
Inductive outcome : Type :=
  | Created   (* a node was linked in and the counter incremented *)
  | Swapped   (* the key was found and its value exchanged *)
  | Refused.  (* the key was found and [replace] was false *)

#[global] Instance outcome_eq_dec : EqDecision outcome.
Proof. solve_decision. Defined.

(** The counter after a walk that ended with [o]. *)
Definition created (o : outcome) (cnt : Z) : Z :=
  match o with Created => incr64 cnt | _ => cnt end.

(** ** The map with a [replace] flag *)

Module Map.
Section map.
Context {K V : Type} `{EqDecision K}.
(** The hash functor [hash_]; its results are [size_t] values. *)
Variable hash_ : K -> Z.

(** [Bucket::Node] without its lock; [next] is the tail of the list. *)
Record Node : Type := mkNode { key : K; val : V }.

(** A bucket is its chain: [head == nullptr] is the empty list. *)
Abbreviation chain := (list Node).

Record t : Type := mkMap {
  size_ : Z;            (* uint64_t size_ *)
  count_ : Z;           (* std::atomic<uint64_t> count_ *)
  data_ : list chain    (* std::vector<Bucket> data_ *)
}.

(** [Map(uint64_t size) : size_(size), data_(size_)]. *)
Definition Map (size : Z) : t :=
  {| size_ := size; count_ := 0; data_ := replicate (Z.to_nat size) [] |}.

(** [hash_(key) % size_]. *)
Definition index (k : K) (m : t) : nat := Z.to_nat (hash_ k mod size_ m).

(** [h = hash_(key) % size_; bucket = data_[h]]. *)
Definition bucket_of (k : K) (m : t) : option (nat * chain) :=
  if decide (size_ m = 0) then None
  else let h := index k m in c ← data_ m !! h; Some (h, c).

(** The walk of [operator[]]: the first node whose key matches. *)
Fixpoint chain_find (k : K) (c : chain) : option V :=
  match c with
  | [] => None
  | n :: next => if decide (key n = k) then Some (val n) else chain_find k next
  end.

Fixpoint chain_contains (k : K) (c : chain) : bool :=
  match c with
  | [] => false
  | n :: next => if decide (key n = k) then true else chain_contains k next
  end.

(** The walk of [Insert]: swap at the first match when [replace], refuse
    when not, link [new_node] behind the last node otherwise. *)
Fixpoint chain_insert (k : K) (v : V) (replace : bool) (c : chain)
  : outcome * chain :=
  match c with
  | [] => (Created, [mkNode k v])
  | n :: next =>
      if decide (key n = k) then
        if replace then (Swapped, mkNode (key n) v :: next) else (Refused, c)
      else
        let '(o, next') := chain_insert k v replace next in (o, n :: next')
  end.

(** The walk of [Erase]: unlink the first match, [None] at the chain end. *)
Fixpoint chain_erase (k : K) (c : chain) : option chain :=
  match c with
  | [] => None
  | n :: next =>
      if decide (key n = k) then Some next
      else next' ← chain_erase k next; Some (n :: next')
  end.

Definition Find (k : K) (m : t) : option (option V) :=
  '(_, c) ← bucket_of k m; Some (chain_find k c).

Definition Contains (k : K) (m : t) : option bool :=
  '(_, c) ← bucket_of k m; Some (chain_contains k c).

Definition Insert (k : K) (v : V) (replace : bool) (m : t)
  : option (bool * t) :=
  '(h, c) ← bucket_of k m;
  match chain_insert k v replace c with
  | (Created, c') =>
      Some (true, {| size_ := size_ m; count_ := incr64 (count_ m);
                     data_ := <[h := c']> (data_ m) |})
  | (Swapped, c') =>
      Some (true, {| size_ := size_ m; count_ := count_ m;
                     data_ := <[h := c']> (data_ m) |})
  | (Refused, _) => Some (false, m)
  end.

Definition Erase (k : K) (m : t) : option (bool * t) :=
  '(h, c) ← bucket_of k m;
  match chain_erase k c with
  | Some c' =>
      Some (true, {| size_ := size_ m; count_ := decr64 (count_ m);
                     data_ := <[h := c']> (data_ m) |})
  | None => Some (false, m)
  end.

Definition Size (m : t) : Z := count_ m.

(** *** Sequences of point operations *)

Inductive op : Type :=
  | OInsert (k : K) (v : V) (replace : bool)
  | OErase (k : K)
  | OContains (k : K).

Definition step (o : op) (m : t) : option (bool * t) :=
  match o with
  | OInsert k v replace => Insert k v replace m
  | OErase k => Erase k m
  | OContains k => b ← Contains k m; Some (b, m)
  end.

(** The operations of [ops] one after the other; the answers in order. *)
Fixpoint run (ops : list op) (m : t) : option (list bool * t) :=
  match ops with
  | [] => Some ([], m)
  | o :: ops' =>
      '(b, m') ← step o m;
      '(bs, m'') ← run ops' m';
      Some (b :: bs, m'')
  end.

(** [k] is never erased by [ops]. *)
Definition not_erased (k : K) (ops : list op) : Prop :=
  ∀ j : nat, ops !! j ≠ Some (OErase k).

(** Some [Insert] of [k] in [ops] answered [true] (it created the node or
    replaced its value), and no [Erase] of [k] comes after it. *)
Definition inserted_last (k : K) (ops : list op) (answers : list bool) : Prop :=
  ∃ (i : nat) (v : V) (replace : bool),
    ops !! i = Some (OInsert k v replace) ∧ answers !! i = Some true ∧
    ∀ j : nat, (i < j)%nat → ops !! j ≠ Some (OErase k).

(** *** Invariants of a table *)

Definition keys (c : chain) : list K := key <$> c.

(** All nodes of the table, bucket after bucket. *)
Definition nodes (m : t) : chain := concat (data_ m).

Definition live_nodes (m : t) : nat := length (nodes m).

(** There is a bucket for every index below [size_]. *)
Definition shaped (m : t) : Prop :=
  0 < size_ m ∧ Z.of_nat (length (data_ m)) = size_ m.

(** The two integer fields hold [uint64_t] values. *)
Definition typed (m : t) : Prop :=
  is_uint64 (size_ m) ∧ is_uint64 (count_ m).

(** No chain holds a key twice. *)
Definition no_duplicates (m : t) : Prop :=
  Forall (fun c => NoDup (keys c)) (data_ m).

(** Every node sits in the bucket its key hashes to. *)
Definition placed (m : t) : Prop :=
  ∀ (i : nat) (c : chain) (k : K),
    data_ m !! i = Some c → k ∈ keys c → index k m = i.

(** The counter is the number of nodes. *)
Definition counted (m : t) : Prop := count_ m = Z.of_nat (live_nodes m).

Definition wf (m : t) : Prop :=
  shaped m ∧ typed m ∧ no_duplicates m ∧ placed m.

End map.
Arguments Node : clear implicits.
Arguments t : clear implicits.
Arguments op : clear implicits.
End Map.

(** ** The first version of the map (src/map.h)

    No counter, no [Resize]; [coef_] is never read or written and the
    table-wide lock [m_] is, like the others, free for a thread alone. *)

Module LegacyMap.
Section legacy.
Context {K V : Type} `{EqDecision K}.
Variable hash_ : K -> Z.

Record Node : Type := mkNode { key : K; val : V }.

Abbreviation chain := (list Node).

Record t : Type := mkMap {
  size_ : Z;
  data_ : list chain
}.

Definition Map (size : Z) : t :=
  {| size_ := size; data_ := replicate (Z.to_nat size) [] |}.

Definition index (k : K) (m : t) : nat := Z.to_nat (hash_ k mod size_ m).

Definition bucket_of (k : K) (m : t) : option (nat * chain) :=
  if decide (size_ m = 0) then None
  else let h := index k m in c ← data_ m !! h; Some (h, c).

Fixpoint chain_find (k : K) (c : chain) : option V :=
  match c with
  | [] => None
  | n :: next => if decide (key n = k) then Some (val n) else chain_find k next
  end.

Fixpoint chain_contains (k : K) (c : chain) : bool :=
  match c with
  | [] => false
  | n :: next => if decide (key n = k) then true else chain_contains k next
  end.

(** The walk of [Insert]: [Node::Swap] at the first match, without a test. *)
Fixpoint chain_insert (k : K) (v : V) (c : chain) : chain :=
  match c with
  | [] => [mkNode k v]
  | n :: next =>
      if decide (key n = k) then mkNode (key n) v :: next
      else n :: chain_insert k v next
  end.

Fixpoint chain_erase (k : K) (c : chain) : option chain :=
  match c with
  | [] => None
  | n :: next =>
      if decide (key n = k) then Some next
      else next' ← chain_erase k next; Some (n :: next')
  end.

Definition Find (k : K) (m : t) : option (option V) :=
  '(_, c) ← bucket_of k m; Some (chain_find k c).

Definition Contains (k : K) (m : t) : option bool :=
  '(_, c) ← bucket_of k m; Some (chain_contains k c).

(** [void Insert(key, value)]. *)
Definition Insert (k : K) (v : V) (m : t) : option (unit * t) :=
  '(h, c) ← bucket_of k m;
  Some (tt, {| size_ := size_ m;
               data_ := <[h := chain_insert k v c]> (data_ m) |}).

Definition Erase (k : K) (m : t) : option (bool * t) :=
  '(h, c) ← bucket_of k m;
  match chain_erase k c with
  | Some c' =>
      Some (true, {| size_ := size_ m; data_ := <[h := c']> (data_ m) |})
  | None => Some (false, m)
  end.

Inductive op : Type :=
  | OInsert (k : K) (v : V)
  | OErase (k : K)
  | OContains (k : K).

(** [Insert] answers nothing: [None]. *)
Definition step (o : op) (m : t) : option (option bool * t) :=
  match o with
  | OInsert k v => '(_, m') ← Insert k v m; Some (None, m')
  | OErase k => '(b, m') ← Erase k m; Some (Some b, m')
  | OContains k => b ← Contains k m; Some (Some b, m)
  end.

Fixpoint run (ops : list op) (m : t) : option (list (option bool) * t) :=
  match ops with
  | [] => Some ([], m)
  | o :: ops' =>
      '(b, m') ← step o m;
      '(bs, m'') ← run ops' m';
      Some (b :: bs, m'')
  end.

End legacy.
Arguments Node : clear implicits.
Arguments t : clear implicits.
Arguments op : clear implicits.

(** *** The first version against the map with a flag *)

(** A chain of the first version read as a chain of the later one. *)
Definition up {K V : Type} (c : list (Node K V)) : list (Map.Node K V) :=
  (fun n => Map.mkNode (key n) (val n)) <$> c.

Arguments up : simpl never.

(** Both tables have the same buckets, chains, keys and values. *)
Definition sim {K V : Type} (ml : t K V) (mr : Map.t K V) : Prop :=
  Map.size_ mr = size_ ml ∧ Map.data_ mr = up <$> data_ ml.

(** The same operation on the later map, every [Insert] with
    [replace = true]. *)
Definition upgrade {K V : Type} (o : op K V) : Map.op K V :=
  match o with
  | OInsert k v => Map.OInsert k v true
  | OErase k => Map.OErase k
  | OContains k => Map.OContains k
  end.

(** An answer of the first version against the answer of the later one:
    [Insert] answers nothing there and [true] here. *)
Definition agree (a : option bool) (b : bool) : Prop :=
  match a with
  | None => b = true
  | Some a' => a' = b
  end.

End LegacyMap.

(** ** Forwarding a value

    [Set::Insert(Val&& value)] builds the new node from
    [std::forward<Val>(value)] and only then hashes [value] and compares
    the nodes of the chain with it.  An lvalue argument is copied and
    stays as it is.  An rvalue argument is moved from, and what it holds
    afterwards is up to its type: an integer is unchanged, a [std::string]
    is left empty by the usual libraries. *)

Class Move (V : Type) : Type := moved_from : V → V.

#[global] Instance Z_move : Move Z := fun z => z.

#[global] Instance string_move : Move string := fun _ => EmptyString.

(** ** The set (src/set.h) *)

Module HashSet.
Section set.
Context {V : Type} `{EqDecision V} {move : Move V}.
Variable hash_ : V -> Z.

(** A node holds its [value] and nothing else: a chain is a list of
    values. *)
Abbreviation chain := (list V).

Record t : Type := mkSet {
  size_ : Z;
  count_ : Z;
  data_ : list chain
}.

Definition Set_ (size : Z) : t :=
  {| size_ := size; count_ := 0; data_ := replicate (Z.to_nat size) [] |}.

Definition index (v : V) (s : t) : nat := Z.to_nat (hash_ v mod size_ s).

Definition bucket_of (v : V) (s : t) : option (nat * chain) :=
  if decide (size_ s = 0) then None
  else let h := index v s in c ← data_ s !! h; Some (h, c).

Fixpoint chain_contains (v : V) (c : chain) : bool :=
  match c with
  | [] => false
  | n :: next => if decide (n = v) then true else chain_contains v next
  end.

(** What [value] holds once the new node was built from
    [std::forward<Val>(value)]. *)
Definition forwarded (rvalue : bool) (v : V) : V :=
  if rvalue then moved_from v else v.

(** The walk of [Insert]: every node is compared with [value]; [None]
    when one is equal (plain [return]), the chain with [new_node] behind
    the last node otherwise. *)
Fixpoint chain_insert (value : V) (new_node : V) (c : chain) : option chain :=
  match c with
  | [] => Some [new_node]
  | n :: next =>
      if decide (n = value) then None
      else next' ← chain_insert value new_node next; Some (n :: next')
  end.

Fixpoint chain_erase (v : V) (c : chain) : option chain :=
  match c with
  | [] => None
  | n :: next =>
      if decide (n = v) then Some next
      else next' ← chain_erase v next; Some (n :: next')
  end.

Definition Contains (v : V) (s : t) : option bool :=
  '(_, c) ← bucket_of v s; Some (chain_contains v c).

(** [void Insert(Val&& value)], called with an lvalue ([rvalue = false]) or
    an rvalue: [new_node] holds [v]; the bucket is the one of [value] as
    it is after the forward, and the walk compares with it.  The caller
    gets [tt] on every path. *)
Definition Insert (rvalue : bool) (v : V) (s : t) : option (unit * t) :=
  let value := forwarded rvalue v in
  '(h, c) ← bucket_of value s;
  match chain_insert value v c with
  | Some c' =>
      Some (tt, {| size_ := size_ s; count_ := incr64 (count_ s);
                   data_ := <[h := c']> (data_ s) |})
  | None => Some (tt, s)
  end.

Definition Erase (v : V) (s : t) : option (bool * t) :=
  '(h, c) ← bucket_of v s;
  match chain_erase v c with
  | Some c' =>
      Some (true, {| size_ := size_ s; count_ := decr64 (count_ s);
                     data_ := <[h := c']> (data_ s) |})
  | None => Some (false, s)
  end.

Definition Size (s : t) : Z := count_ s.

Definition nodes (s : t) : chain := concat (data_ s).

Definition live_nodes (s : t) : nat := length (nodes s).

Definition shaped (s : t) : Prop :=
  0 < size_ s ∧ Z.of_nat (length (data_ s)) = size_ s.

Definition typed (s : t) : Prop :=
  is_uint64 (size_ s) ∧ is_uint64 (count_ s).

Definition no_duplicates (s : t) : Prop :=
  Forall (fun c => NoDup c) (data_ s).

Definition placed (s : t) : Prop :=
  ∀ (i : nat) (c : chain) (v : V),
    data_ s !! i = Some c → v ∈ c → index v s = i.

Definition counted (s : t) : Prop := count_ s = Z.of_nat (live_nodes s).

Definition wf (s : t) : Prop :=
  shaped s ∧ typed s ∧ no_duplicates s ∧ placed s.

End set.
Arguments t : clear implicits.

(** *** The set as a map to [unit]

    The set is the map engine with the payload collapsed to the key: a
    chain of values read as a chain of nodes whose [val] is [tt]. *)

Definition lift {V : Type} (c : list V) : list (Map.Node V unit) :=
  (fun v => Map.mkNode v tt) <$> c.

Definition to_map {V : Type} (s : t V) : Map.t V unit :=
  Map.mkMap (size_ s) (count_ s) (lift <$> data_ s).

Arguments lift : simpl never.

End HashSet.

(** ** The scenario of the reference test

    [Map<std::string, int> map(2)] and the calls of the scenario, with the
    answers that are looked at.  The hash of a string is left open. *)

Record observed : Type := mkObserved {
  insert_aboba_10 : bool;         (* Insert("aboba", 10) *)
  insert_aboba_5 : bool;          (* Insert("aboba", 5, true) *)
  find_aboba_inserted : option Z; (* Find("aboba") after both *)
  erase_aboba_1 : bool;           (* the first Erase("aboba") *)
  erase_aboba_2 : bool;           (* the second Erase("aboba") *)
  find_aboba : option Z;          (* the lookups at the end *)
  find_dassyr : option Z;
  find_zeleboba : option Z
}.

Definition scenario (hash_ : string → Z) : option observed :=
  let m0 := Map.Map 2 in
  '(i1, m1) ← Map.Insert hash_ "aboba" 10 false m0;
  '(i2, m2) ← Map.Insert hash_ "aboba" 5 true m1;
  f1 ← Map.Find hash_ "aboba" m2;
  '(_, m3) ← Map.Insert hash_ "zeleboba" 10 false m2;
  '(_, m4) ← Map.Insert hash_ "dassyr" 20 false m3;
  '(e1, m5) ← Map.Erase hash_ "aboba" m4;
  '(e2, m6) ← Map.Erase hash_ "aboba" m5;
  f2 ← Map.Find hash_ "aboba" m6;
  f3 ← Map.Find hash_ "dassyr" m6;
  f4 ← Map.Find hash_ "zeleboba" m6;
  Some (mkObserved i1 i2 f1 e1 e2 f2 f3 f4).

(** ** Example tables

    Integer keys hashed to themselves, two buckets: key 2 sits in bucket 0
    and key 1 in bucket 1. *)

Definition hash_id (z : Z) : Z := z.

Definition hash_length (s : string) : Z := Z.of_nat (String.length s).

Definition example_map : Map.t Z Z :=
  Map.mkMap 2 2 [[Map.mkNode 2 20]; [Map.mkNode 1 10]].

Definition example_set : HashSet.t Z := HashSet.mkSet 2 2 [[2]; [1]].

(** ** A standard mapping and a standard set

    What the containers are compared with: a mapping is a function from
    keys to optional values, a set a function from values to [bool]. *)

Module Model.
Section model.
Context {K V : Type} `{EqDecision K}.

Definition put (k : K) (v : V) (f : K → option V) : K → option V :=
  fun k' => if decide (k' = k) then Some v else f k'.

Definition remove (k : K) (f : K → option V) : K → option V :=
  fun k' => if decide (k' = k) then None else f k'.

Definition present (k : K) (f : K → option V) : bool :=
  bool_decide (is_Some (f k)).

(** An insertion that does not replace leaves a present key alone and
    answers [false]; every other insertion binds the key and answers
    [true].  An erasure answers whether the key was bound. *)
Definition step (o : Map.op K V) (f : K → option V)
  : bool * (K → option V) :=
  match o with
  | Map.OInsert k v replace =>
      if present k f && negb replace then (false, f) else (true, put k v f)
  | Map.OErase k => (present k f, remove k f)
  | Map.OContains k => (present k f, f)
  end.

Fixpoint run (ops : list (Map.op K V)) (f : K → option V)
  : list bool * (K → option V) :=
  match ops with
  | [] => ([], f)
  | o :: ops' =>
      let '(b, f') := step o f in
      let '(bs, f'') := run ops' f' in (b :: bs, f'')
  end.

(** The key an operation is about. *)
Definition key_of (o : Map.op K V) : K :=
  match o with
  | Map.OInsert k _ _ => k
  | Map.OErase k => k
  | Map.OContains k => k
  end.

End model.
End Model.

(** The table [m] holds the mapping [f]: [Find] answers [f k] for every
    key. *)
Definition represents {K V : Type} `{EqDecision K} (hash_ : K → Z)
    (m : Map.t K V) (f : K → option V) : Prop :=
  ∀ k, Map.Find hash_ k m = Some (f k).

(** The same for the first version of the map. *)
Definition legacy_represents {K V : Type} `{EqDecision K} (hash_ : K → Z)
    (m : LegacyMap.t K V) (f : K → option V) : Prop :=
  ∀ k, LegacyMap.Find hash_ k m = Some (f k).

(** *** Sequences of operations on the set *)

Module SetOps.
Section ops.
Context {V : Type} `{EqDecision V} {move : Move V}.
Variable hash_ : V -> Z.

Inductive op : Type :=
  | OInsert (v : V)         (* Insert of an lvalue *)
  | OInsertRvalue (v : V)   (* Insert of an rvalue *)
  | OErase (v : V)
  | OContains (v : V).

(** [Insert] is [void] and answers nothing: [None]. *)
Definition step (o : op) (s : HashSet.t V) : option (option bool * HashSet.t V) :=
  match o with
  | OInsert v => '(_, s') ← HashSet.Insert hash_ false v s; Some (None, s')
  | OInsertRvalue v => '(_, s') ← HashSet.Insert hash_ true v s; Some (None, s')
  | OErase v => '(b, s') ← HashSet.Erase hash_ v s; Some (Some b, s')
  | OContains v => b ← HashSet.Contains hash_ v s; Some (Some b, s)
  end.

Fixpoint run (ops : list op) (s : HashSet.t V)
  : option (list (option bool) * HashSet.t V) :=
  match ops with
  | [] => Some ([], s)
  | o :: ops' =>
      '(b, s') ← step o s;
      '(bs, s'') ← run ops' s';
      Some (b :: bs, s'')
  end.

(** The standard set. *)
Definition model_step (o : op) (g : V → bool) : option bool * (V → bool) :=
  match o with
  | OInsert v | OInsertRvalue v =>
      (None, fun w => if decide (w = v) then true else g w)
  | OErase v => (Some (g v), fun w => if decide (w = v) then false else g w)
  | OContains v => (Some (g v), g)
  end.

Fixpoint model_run (ops : list op) (g : V → bool)
  : list (option bool) * (V → bool) :=
  match ops with
  | [] => ([], g)
  | o :: ops' =>
      let '(b, g') := model_step o g in
      let '(bs, g'') := model_run ops' g' in (b :: bs, g'')
  end.

(** The set [s] holds the set [g]. *)
Definition represents (s : HashSet.t V) (g : V → bool) : Prop :=
  ∀ v, HashSet.Contains hash_ v s = Some (g v).

(** The argument of the operation is not changed by being moved from. *)
Definition intact (o : op) : Prop :=
  match o with
  | OInsertRvalue v => moved_from v = v
  | _ => True
  end.

End ops.
Arguments op : clear implicits.
End SetOps.

(** ** Two insertions of an rvalue string

    [Set<std::string> set(2)], then twice [set.Insert(std::string("aboba"))];
    the string is empty once it was moved from. *)

Definition insert_rvalue_twice (hash_ : string → Z) : option (HashSet.t string) :=
  '(_, s1) ← HashSet.Insert hash_ true "aboba" (HashSet.Set_ 2);
  '(_, s2) ← HashSet.Insert hash_ true "aboba" s1;
  Some s2.

(** * Machine arithmetic *)

Lemma incr64_typed z : is_uint64 (incr64 z).
Proof. apply Z.mod_pos_bound. done. Qed.

Lemma decr64_typed z : is_uint64 (decr64 z).
Proof. apply Z.mod_pos_bound. done. Qed.

Lemma incr64_small z : 0 <= z < uint64_mod - 1 → incr64 z = z + 1.
Proof. intros ?. unfold incr64. apply Z.mod_small. lia. Qed.

Lemma decr64_small z : 0 < z < uint64_mod → decr64 z = z - 1.
Proof. intros ?. unfold decr64. apply Z.mod_small. lia. Qed.

(** * Facts about the map *)

(** ** Chains *)

Section map_chain_facts.
Context {K V : Type} `{EqDecision K}.
Implicit Types (k : K) (v : V) (c : list (Map.Node K V)).

Lemma chain_contains_keys k c :
  Map.chain_contains k c = bool_decide (k ∈ Map.keys c).
Proof.
  induction c as [|n c IH]; simpl; [done|].
  destruct (decide (Map.key n = k)) as [<-|Hne].
  - symmetry. apply bool_decide_eq_true. left.
  - rewrite IH. apply bool_decide_ext. rewrite elem_of_cons. intuition congruence.
Qed.

Lemma chain_find_keys k c : is_Some (Map.chain_find k c) ↔ k ∈ Map.keys c.
Proof.
  induction c as [|n c IH]; simpl.
  - split; [intros [? [=]]|by intros ?%elem_of_nil].
  - destruct (decide (Map.key n = k)) as [<-|Hne].
    + split; [left|eauto].
    + rewrite IH, elem_of_cons. intuition congruence.
Qed.

Lemma chain_contains_find k c :
  Map.chain_contains k c = bool_decide (is_Some (Map.chain_find k c)).
Proof. rewrite chain_contains_keys. apply bool_decide_ext. by rewrite chain_find_keys. Qed.

Lemma keys_cons (n : Map.Node K V) c :
  Map.keys (n :: c) = Map.key n :: Map.keys c.
Proof. done. Qed.

Lemma chain_insert_outcome k v r c :
  (Map.chain_insert k v r c).1 =
    if decide (k ∈ Map.keys c) then (if r then Swapped else Refused) else Created.
Proof.
  induction c as [|n c IH].
  - rewrite decide_False; [done|]. apply not_elem_of_nil.
  - cbn [Map.chain_insert]. rewrite keys_cons.
    destruct (decide (Map.key n = k)) as [<-|Hne].
    + rewrite decide_True; [|left]. by destruct r.
    + destruct (Map.chain_insert k v r c) as [o c'] eqn:E.
      cbn [fst] in *. subst o.
      apply decide_ext. rewrite elem_of_cons. intuition congruence.
Qed.

Lemma chain_insert_keys k v r c :
  Map.keys (Map.chain_insert k v r c).2 =
    if decide (k ∈ Map.keys c) then Map.keys c else Map.keys c ++ [k].
Proof.
  induction c as [|n c IH].
  - rewrite decide_False; [done|]. apply not_elem_of_nil.
  - cbn [Map.chain_insert]. rewrite keys_cons.
    destruct (decide (Map.key n = k)) as [<-|Hne].
    + rewrite decide_True; [|left]. by destruct r.
    + destruct (Map.chain_insert k v r c) as [o c'] eqn:E.
      cbn [snd] in *. rewrite keys_cons, IH.
      destruct (decide (k ∈ Map.keys c)) as [Hin|Hout].
      * rewrite decide_True; [done|by right].
      * rewrite decide_False; [done|]. rewrite elem_of_cons. intuition congruence.
Qed.

Lemma chain_insert_length k v r c :
  length (Map.chain_insert k v r c).2 =
    if decide (k ∈ Map.keys c) then length c else S (length c).
Proof.
  rewrite <-(length_fmap Map.key (Map.chain_insert k v r c).2).
  fold (Map.keys (Map.chain_insert k v r c).2). rewrite chain_insert_keys.
  unfold Map.keys. case_decide; rewrite ?length_app, !length_fmap; simpl; lia.
Qed.

Lemma chain_insert_refused k v r c :
  (Map.chain_insert k v r c).1 = Refused → (Map.chain_insert k v r c).2 = c.
Proof.
  induction c as [|n c IH]; simpl; [done|].
  destruct (decide (Map.key n = k)) as [<-|Hne].
  - by destruct r.
  - destruct (Map.chain_insert k v r c) as [o c'] eqn:E. simpl in *.
    intros Ho. by rewrite IH.
Qed.

Lemma chain_find_insert_ne k k' v r c :
  k' ≠ k →
  Map.chain_find k' (Map.chain_insert k v r c).2 = Map.chain_find k' c.
Proof.
  intros Hne. induction c as [|n c IH]; simpl.
  - by rewrite decide_False.
  - destruct (decide (Map.key n = k)) as [Hk|Hk].
    + destruct r; simpl; [|done]. rewrite Hk. by rewrite !decide_False.
    + destruct (Map.chain_insert k v r c) as [o c'] eqn:E. simpl in *.
      by rewrite IH.
Qed.

Lemma chain_find_insert_eq k v r c :
  Map.chain_find k (Map.chain_insert k v r c).2 =
    match (Map.chain_insert k v r c).1 with
    | Refused => Map.chain_find k c
    | _ => Some v
    end.
Proof.
  induction c as [|n c IH]; simpl.
  - by rewrite decide_True.
  - destruct (decide (Map.key n = k)) as [Hk|Hk].
    + destruct r; simpl; by rewrite decide_True.
    + destruct (Map.chain_insert k v r c) as [o c'] eqn:E. simpl in *.
      by rewrite decide_False.
Qed.

Lemma chain_erase_None k c : Map.chain_erase k c = None ↔ k ∉ Map.keys c.
Proof.
  induction c as [|n c IH]; simpl.
  - split; [by intros _ ?%elem_of_nil|done].
  - destruct (decide (Map.key n = k)) as [<-|Hne].
    + split; [done|]. intros []. left.
    + rewrite not_elem_of_cons, <-IH.
      destruct (Map.chain_erase k c); simpl; intuition congruence.
Qed.

Lemma chain_erase_length k c c' :
  Map.chain_erase k c = Some c' → length c = S (length c').
Proof.
  revert c'. induction c as [|n c IH]; intros c'; simpl; [done|].
  destruct (decide (Map.key n = k)); [by intros [= <-]|].
  destruct (Map.chain_erase k c) as [c0|]; simpl; [|done].
  intros [= <-]. simpl. by rewrite (IH c0).
Qed.

Lemma chain_erase_keys k c c' :
  Map.chain_erase k c = Some c' →
  ∀ k', k' ∈ Map.keys c' → k' ∈ Map.keys c.
Proof.
  revert c'. induction c as [|n c IH]; intros c'; simpl; [done|].
  destruct (decide (Map.key n = k)); [intros [= <-] k' ?; by right|].
  destruct (Map.chain_erase k c) as [c0|]; simpl; [|done].
  intros [= <-] k'. simpl. rewrite !elem_of_cons. intros [?|?]; eauto.
Qed.

Lemma chain_erase_NoDup k c c' :
  Map.chain_erase k c = Some c' → NoDup (Map.keys c) →
  NoDup (Map.keys c') ∧ k ∉ Map.keys c'.
Proof.
  revert c'. induction c as [|n c IH]; intros c'; simpl; [done|].
  rewrite NoDup_cons.
  destruct (decide (Map.key n = k)) as [<-|Hne]; [by intros [= <-] []|].
  destruct (Map.chain_erase k c) as [c0|] eqn:E; simpl; [|done].
  intros [= <-] [Hn Hnd]. destruct (IH c0 eq_refl Hnd) as [IH1 IH2].
  simpl. rewrite NoDup_cons, not_elem_of_cons. split_and!; [|done|done|done].
  intros Hin. apply Hn. by eapply chain_erase_keys.
Qed.

Lemma chain_find_erase_ne k k' c c' :
  Map.chain_erase k c = Some c' → k' ≠ k →
  Map.chain_find k' c' = Map.chain_find k' c.
Proof.
  revert c'. induction c as [|n c IH]; intros c'; simpl; [done|].
  destruct (decide (Map.key n = k)) as [Hk|Hk].
  - intros [= <-] Hne. rewrite Hk. by rewrite decide_False.
  - destruct (Map.chain_erase k c) as [c0|] eqn:E; simpl; [|done].
    intros [= <-] Hne. simpl. by rewrite (IH c0).
Qed.

Lemma chain_find_None k c : Map.chain_find k c = None ↔ k ∉ Map.keys c.
Proof. rewrite <-chain_find_keys, eq_None_not_Some. done. Qed.

Lemma chain_find_app k c1 c2 :
  Map.chain_find k (c1 ++ c2) =
    match Map.chain_find k c1 with
    | Some v => Some v
    | None => Map.chain_find k c2
    end.
Proof.
  induction c1 as [|n c1 IH]; [done|]. cbn.
  by destruct (decide (Map.key n = k)).
Qed.

Lemma keys_app c1 c2 : Map.keys (c1 ++ c2) = Map.keys c1 ++ Map.keys c2.
Proof. apply fmap_app. Qed.

Lemma elem_of_keys_concat k (l : list (list (Map.Node K V))) :
  k ∈ Map.keys (concat l) ↔ ∃ i c, l !! i = Some c ∧ k ∈ Map.keys c.
Proof.
  induction l as [|c0 l IH]; cbn [concat].
  - split; [by intros ?%elem_of_nil|by intros (i & c & ? & _)].
  - rewrite keys_app, elem_of_app, IH. split.
    + intros [Hin|(i & c & Hi & Hin)]; [by exists 0%nat, c0|by exists (S i), c].
    + intros ([|i] & c & Hi & Hin); cbn in Hi; [left; congruence|right; eauto].
Qed.

Lemma concat_keys_NoDup (f : K → nat) (l : list (list (Map.Node K V))) :
  ∀ off : nat,
  Forall (fun c => NoDup (Map.keys c)) l →
  (∀ i c k, l !! i = Some c → k ∈ Map.keys c → f k = (off + i)%nat) →
  NoDup (Map.keys (concat l)).
Proof.
  induction l as [|c0 l IH]; intros off Hnd Hpl; cbn [concat].
  - apply NoDup_nil_2.
  - apply Forall_cons in Hnd as [Hnd0 Hnd]. rewrite keys_app.
    apply NoDup_app. split_and!; [done| |].
    + intros k Hk0 (i & c & Hi & Hk)%elem_of_keys_concat.
      pose proof (Hpl 0%nat c0 k eq_refl Hk0). pose proof (Hpl (S i) c k Hi Hk).
      lia.
    + apply (IH (S off)); [done|]. intros i c k Hi Hk.
      rewrite (Hpl (S i) c k Hi Hk). lia.
Qed.

Lemma chain_find_concat k (l : list (list (Map.Node K V))) : ∀ i c,
  l !! i = Some c →
  (∀ j c', l !! j = Some c' → k ∈ Map.keys c' → j = i) →
  Map.chain_find k (concat l) = Map.chain_find k c.
Proof.
  induction l as [|c0 l IH]; intros i c Hi Honly; [done|].
  cbn [concat]. rewrite chain_find_app. destruct i as [|i]; cbn in Hi.
  - injection Hi as ->. destruct (Map.chain_find k c) eqn:E; [done|].
    apply chain_find_None. intros (j & c' & Hj & Hk)%elem_of_keys_concat.
    by pose proof (Honly (S j) c' Hj Hk).
  - assert (Map.chain_find k c0 = None) as ->.
    { apply chain_find_None. intros Hk. by pose proof (Honly 0%nat c0 eq_refl Hk). }
    apply (IH i); [done|]. intros j c' Hj Hk.
    pose proof (Honly (S j) c' Hj Hk). lia.
Qed.

Lemma length_concat_insert {A} (l : list (list A)) h (c c' : list A) :
  l !! h = Some c →
  (length (concat (<[h:=c']> l)) + length c)%nat =
  (length (concat l) + length c')%nat.
Proof.
  revert h. induction l as [|x l IH]; intros [|h]; cbn; try done.
  - intros [= ->]. rewrite !length_app. lia.
  - intros Hc. rewrite !length_app, <-!Nat.add_assoc. f_equal. by apply IH.
Qed.

End map_chain_facts.

(** ** Buckets *)

Section map_facts.
Context {K V : Type} `{EqDecision K}.
Variable hash_ : K -> Z.
Implicit Types (k : K) (v : V) (c : list (Map.Node K V)) (m : Map.t K V).

Lemma index_lt k m : Map.shaped m → (Map.index hash_ k m < length (Map.data_ m))%nat.
Proof.
  intros [Hpos Hlen]. unfold Map.index.
  pose proof (Z.mod_pos_bound (hash_ k) (Map.size_ m) Hpos). lia.
Qed.

Lemma bucket_of_shaped k m :
  Map.shaped m →
  ∃ c, Map.data_ m !! Map.index hash_ k m = Some c ∧
       Map.bucket_of hash_ k m = Some (Map.index hash_ k m, c).
Proof.
  intros Hs. destruct (lookup_lt_is_Some_2 _ _ (index_lt k m Hs)) as [c Hc].
  exists c. split; [done|]. unfold Map.bucket_of.
  destruct Hs as [Hpos _]. rewrite decide_False by lia.
  cbn zeta. by rewrite Hc.
Qed.

Lemma bucket_of_Some k m h c :
  Map.bucket_of hash_ k m = Some (h, c) →
  Map.size_ m ≠ 0 ∧ h = Map.index hash_ k m ∧ Map.data_ m !! h = Some c.
Proof.
  unfold Map.bucket_of. case_decide; [done|]. cbn zeta.
  destruct (Map.data_ m !! Map.index hash_ k m) as [c0|] eqn:E; [|done].
  by intros [= <- <-].
Qed.

(** A state that differs from [m] in the counter and in bucket [h]. *)
Lemma bucket_of_store k' m h c c' cnt :
  Map.data_ m !! h = Some c → Map.size_ m ≠ 0 →
  Map.bucket_of hash_ k' (Map.mkMap (Map.size_ m) cnt (<[h:=c']> (Map.data_ m))) =
    if decide (Map.index hash_ k' m = h) then Some (h, c')
    else Map.bucket_of hash_ k' m.
Proof.
  intros Hc Hsz. unfold Map.bucket_of, Map.index. cbn [Map.size_ Map.data_].
  rewrite !decide_False by done. cbn zeta.
  case_decide as Hh.
  - rewrite Hh, list_lookup_insert_eq; [done|]. by eapply lookup_lt_Some.
  - rewrite decide_False by done. by rewrite list_lookup_insert_ne.
Qed.

Lemma shaped_store m h c' cnt :
  Map.shaped m → Map.shaped (Map.mkMap (Map.size_ m) cnt (<[h:=c']> (Map.data_ m))).
Proof. intros [??]. split; cbn; [done|]. by rewrite length_insert. Qed.

Lemma no_duplicates_store m h c' cnt :
  Map.no_duplicates m → NoDup (Map.keys c') →
  Map.no_duplicates (Map.mkMap (Map.size_ m) cnt (<[h:=c']> (Map.data_ m))).
Proof.
  unfold Map.no_duplicates. cbn. intros Hm Hc.
  destruct (decide (h < length (Map.data_ m))%nat).
  - by apply Forall_insert.
  - by rewrite list_insert_ge by lia.
Qed.

Lemma placed_store k m h c c' cnt :
  Map.data_ m !! h = Some c → h = Map.index hash_ k m →
  (∀ k', k' ∈ Map.keys c' → k' ∈ Map.keys c ∨ k' = k) →
  Map.placed hash_ m →
  Map.placed hash_ (Map.mkMap (Map.size_ m) cnt (<[h:=c']> (Map.data_ m))).
Proof.
  intros Hc Hh Hsub Hm i ci k'. cbn [Map.data_]. unfold Map.index. cbn [Map.size_].
  fold (Map.index hash_ k' m). destruct (decide (i = h)) as [->|Hne].
  - rewrite list_lookup_insert_eq by by eapply lookup_lt_Some.
    intros [= <-] Hin. destruct (Hsub _ Hin) as [Hin'| ->]; [|done].
    by eapply Hm.
  - rewrite list_lookup_insert_ne by done. apply Hm.
Qed.

Lemma live_nodes_store m h c c' cnt :
  Map.data_ m !! h = Some c →
  (Map.live_nodes (Map.mkMap (Map.size_ m) cnt (<[h:=c']> (Map.data_ m)))
     + length c)%nat = (Map.live_nodes m + length c')%nat.
Proof. intros Hc. unfold Map.live_nodes, Map.nodes. cbn. by apply length_concat_insert. Qed.

(** ** What the point operations compute *)

Lemma Insert_Some k v r m b m' :
  Map.Insert hash_ k v r m = Some (b, m') →
  ∃ c, Map.data_ m !! Map.index hash_ k m = Some c ∧ Map.size_ m ≠ 0 ∧
       b = bool_decide ((Map.chain_insert k v r c).1 ≠ Refused) ∧
       m' = Map.mkMap (Map.size_ m)
              (created (Map.chain_insert k v r c).1 (Map.count_ m))
              (<[Map.index hash_ k m := (Map.chain_insert k v r c).2]> (Map.data_ m)).
Proof.
  unfold Map.Insert.
  destruct (Map.bucket_of hash_ k m) as [[h c]|] eqn:Hb; [|done].
  apply bucket_of_Some in Hb as (Hsz & -> & Hc). cbn.
  pose proof (chain_insert_refused k v r c) as Href.
  intros Hm. exists c. destruct (Map.chain_insert k v r c) as [o c'] eqn:E.
  cbn [fst snd] in *.
  destruct o; injection Hm as <- <-; split_and!; try done.
  rewrite Href by done. rewrite list_insert_id by done. by destruct m.
Qed.

Lemma Insert_total k v r m : Map.shaped m → is_Some (Map.Insert hash_ k v r m).
Proof.
  intros Hs. destruct (bucket_of_shaped k m Hs) as (c & _ & Hb).
  unfold Map.Insert. rewrite Hb. cbn.
  destruct (Map.chain_insert k v r c) as [[] c']; eauto.
Qed.

Lemma Erase_Some k m b m' :
  Map.Erase hash_ k m = Some (b, m') →
  ∃ c, Map.data_ m !! Map.index hash_ k m = Some c ∧ Map.size_ m ≠ 0 ∧
       match Map.chain_erase k c with
       | Some c' =>
           b = true ∧
           m' = Map.mkMap (Map.size_ m) (decr64 (Map.count_ m))
                  (<[Map.index hash_ k m := c']> (Map.data_ m))
       | None => b = false ∧ m' = m
       end.
Proof.
  unfold Map.Erase.
  destruct (Map.bucket_of hash_ k m) as [[h c]|] eqn:Hb; [|done].
  apply bucket_of_Some in Hb as (Hsz & -> & Hc). cbn.
  destruct (Map.chain_erase k c) as [c'|] eqn:He; intros [= <- <-];
    exists c; rewrite He; by split_and!.
Qed.

Lemma Insert_defined k v r m :
  is_Some (Map.Contains hash_ k m) → is_Some (Map.Insert hash_ k v r m).
Proof.
  unfold Map.Contains, Map.Insert.
  destruct (Map.bucket_of hash_ k m) as [[h c]|]; [|by intros [? [=]]].
  intros _. cbn. destruct (Map.chain_insert k v r c) as [[] c']; eauto.
Qed.

Lemma Erase_defined k m :
  is_Some (Map.Contains hash_ k m) → is_Some (Map.Erase hash_ k m).
Proof.
  unfold Map.Contains, Map.Erase.
  destruct (Map.bucket_of hash_ k m) as [[h c]|]; [|by intros [? [=]]].
  intros _. cbn. destruct (Map.chain_erase k c); eauto.
Qed.

Lemma Erase_total k m : Map.shaped m → is_Some (Map.Erase hash_ k m).
Proof.
  intros Hs. destruct (bucket_of_shaped k m Hs) as (c & _ & Hb).
  unfold Map.Erase. rewrite Hb. cbn. destruct (Map.chain_erase k c); eauto.
Qed.

Lemma Find_Some k m :
  Map.shaped m →
  ∃ c, Map.data_ m !! Map.index hash_ k m = Some c ∧
       Map.Find hash_ k m = Some (Map.chain_find k c) ∧
       Map.Contains hash_ k m = Some (Map.chain_contains k c).
Proof.
  intros Hs. destruct (bucket_of_shaped k m Hs) as (c & Hc & Hb).
  exists c. unfold Map.Find, Map.Contains. by rewrite Hb.
Qed.

Lemma Contains_Find k m :
  Map.Contains hash_ k m =
    (fun o => bool_decide (is_Some o)) <$> Map.Find hash_ k m.
Proof.
  unfold Map.Contains, Map.Find.
  destruct (Map.bucket_of hash_ k m) as [[h c]|]; [|done].
  cbn. by rewrite chain_contains_find.
Qed.

(** A lookup in a state that differs from [m] in bucket [h]. *)
Lemma Find_store k' m h c c' cnt :
  Map.data_ m !! h = Some c → Map.size_ m ≠ 0 →
  Map.Find hash_ k' (Map.mkMap (Map.size_ m) cnt (<[h:=c']> (Map.data_ m))) =
    if decide (Map.index hash_ k' m = h) then Some (Map.chain_find k' c')
    else Map.Find hash_ k' m.
Proof.
  intros Hc Hsz. unfold Map.Find. rewrite (bucket_of_store _ _ _ c) by done.
  by case_decide.
Qed.

Lemma Find_index k m c :
  Map.data_ m !! Map.index hash_ k m = Some c → Map.size_ m ≠ 0 →
  Map.Find hash_ k m = Some (Map.chain_find k c).
Proof.
  intros Hc Hsz. unfold Map.Find, Map.bucket_of. rewrite decide_False by done.
  cbn zeta. by rewrite Hc.
Qed.

(** ** [Insert] *)

Lemma Insert_answer k v r m b m' :
  Map.Insert hash_ k v r m = Some (b, m') →
  ∃ p, Map.Contains hash_ k m = Some p ∧ b = r || negb p ∧
       Map.count_ m' = (if p then Map.count_ m else incr64 (Map.count_ m)) ∧
       Map.size_ m' = Map.size_ m.
Proof.
  intros (c & Hc & Hsz & -> & ->)%Insert_Some.
  exists (Map.chain_contains k c). unfold Map.Contains, Map.bucket_of.
  rewrite decide_False by done. cbn zeta. rewrite Hc. cbn.
  rewrite chain_insert_outcome, chain_contains_keys.
  split; [done|]. destruct (decide (k ∈ Map.keys c)) as [Hin|Hout].
  - rewrite (bool_decide_eq_true_2 _ Hin). by destruct r.
  - rewrite (bool_decide_eq_false_2 _ Hout). by destruct r.
Qed.

Lemma Insert_refused k v r m m' :
  Map.Insert hash_ k v r m = Some (false, m') → m' = m.
Proof.
  intros (c & Hc & Hsz & Hb & ->)%Insert_Some.
  symmetry in Hb. apply bool_decide_eq_false in Hb.
  destruct (decide ((Map.chain_insert k v r c).1 = Refused)) as [E|]; [|done].
  rewrite E, (chain_insert_refused _ _ _ _ E), list_insert_id by done.
  by destruct m.
Qed.

Lemma Find_Insert_eq k v r m m' :
  Map.Insert hash_ k v r m = Some (true, m') →
  Map.Find hash_ k m' = Some (Some v).
Proof.
  intros (c & Hc & Hsz & Hb & ->)%Insert_Some.
  rewrite (Find_store _ _ _ c) by done. rewrite decide_True by done.
  rewrite chain_find_insert_eq. symmetry in Hb. apply bool_decide_eq_true in Hb.
  by destruct (Map.chain_insert k v r c).1.
Qed.

Lemma Find_Insert_ne k k' v r m b m' :
  Map.Insert hash_ k v r m = Some (b, m') → k' ≠ k →
  Map.Find hash_ k' m' = Map.Find hash_ k' m.
Proof.
  intros (c & Hc & Hsz & _ & ->)%Insert_Some Hne.
  rewrite (Find_store _ _ _ c) by done. case_decide as Hi; [|done].
  rewrite chain_find_insert_ne by done. symmetry. apply Find_index; [|done].
  by rewrite Hi.
Qed.

Lemma Contains_Insert k v r m b m' :
  Map.Insert hash_ k v r m = Some (b, m') →
  Map.Contains hash_ k m' = Some true.
Proof.
  intros Hi. destruct b.
  - by rewrite Contains_Find, (Find_Insert_eq _ _ _ _ _ Hi).
  - destruct (Insert_answer _ _ _ _ _ _ Hi) as (p & Hp & Hb & _).
    rewrite (Insert_refused _ _ _ _ _ Hi). rewrite Hp. f_equal.
    by destruct p, r.
Qed.

Lemma Insert_shaped k v r m b m' :
  Map.Insert hash_ k v r m = Some (b, m') → Map.shaped m → Map.shaped m'.
Proof. intros (c & Hc & Hsz & _ & ->)%Insert_Some. apply shaped_store. Qed.

Lemma Insert_typed k v r m b m' :
  Map.Insert hash_ k v r m = Some (b, m') → Map.typed m → Map.typed m'.
Proof.
  intros (c & Hc & Hsz & _ & ->)%Insert_Some [? ?]. split; cbn; [done|].
  destruct (Map.chain_insert k v r c).1; cbn; auto using incr64_typed.
Qed.

Lemma Insert_no_duplicates k v r m b m' :
  Map.Insert hash_ k v r m = Some (b, m') →
  Map.no_duplicates m → Map.no_duplicates m'.
Proof.
  intros (c & Hc & Hsz & _ & ->)%Insert_Some Hnd.
  apply no_duplicates_store; [done|]. rewrite chain_insert_keys.
  pose proof (proj1 (Forall_lookup _ _) Hnd _ _ Hc) as Hndc. cbn in Hndc.
  case_decide; [done|]. apply NoDup_app. split_and!; [done| |apply NoDup_singleton].
  intros x Hx ->%list_elem_of_singleton. done.
Qed.

Lemma Insert_placed k v r m b m' :
  Map.Insert hash_ k v r m = Some (b, m') →
  Map.placed hash_ m → Map.placed hash_ m'.
Proof.
  intros (c & Hc & Hsz & _ & ->)%Insert_Some.
  apply (placed_store k _ _ c); [done..|].
  intros k'. rewrite chain_insert_keys. case_decide; [by left|].
  rewrite elem_of_app, list_elem_of_singleton. done.
Qed.

Lemma Insert_wf k v r m b m' :
  Map.Insert hash_ k v r m = Some (b, m') → Map.wf hash_ m → Map.wf hash_ m'.
Proof.
  intros Hi (?&?&?&?).
  split_and!; eauto using Insert_shaped, Insert_typed, Insert_no_duplicates,
    Insert_placed.
Qed.

Lemma Insert_counted k v r m b m' :
  Map.Insert hash_ k v r m = Some (b, m') →
  Map.counted m → Map.Size m < uint64_mod - 1 → Map.counted m'.
Proof.
  intros (c & Hc & Hsz & _ & ->)%Insert_Some. unfold Map.counted, Map.Size.
  intros Hcnt Hroom.
  pose proof (live_nodes_store m (Map.index hash_ k m) c
    (Map.chain_insert k v r c).2
    (created (Map.chain_insert k v r c).1 (Map.count_ m)) Hc) as Hlen.
  rewrite chain_insert_length in Hlen. cbn [Map.count_].
  unfold Map.live_nodes, Map.nodes in *. cbn [Map.data_] in *.
  rewrite chain_insert_outcome. case_decide.
  - destruct r; cbn; lia.
  - cbn. rewrite incr64_small by lia. lia.
Qed.

(** ** [Erase] *)

Lemma Erase_answer k m b m' :
  Map.Erase hash_ k m = Some (b, m') →
  Map.Contains hash_ k m = Some b ∧ Map.size_ m' = Map.size_ m ∧
  Map.count_ m' = (if b then decr64 (Map.count_ m) else Map.count_ m).
Proof.
  intros (c & Hc & Hsz & He)%Erase_Some.
  unfold Map.Contains, Map.bucket_of. rewrite decide_False by done.
  cbn zeta. rewrite Hc. cbn. rewrite chain_contains_keys.
  destruct (Map.chain_erase k c) as [c'|] eqn:E; destruct He as [-> ->].
  - split; [|done]. f_equal. apply bool_decide_eq_true.
    destruct (decide (k ∈ Map.keys c)) as [|Hout]; [done|].
    apply chain_erase_None in Hout. congruence.
  - split; [|done]. f_equal. apply bool_decide_eq_false.
    by apply chain_erase_None.
Qed.

Lemma Erase_absent k m m' :
  Map.Erase hash_ k m = Some (false, m') → m' = m.
Proof.
  intros (c & Hc & Hsz & He)%Erase_Some.
  destruct (Map.chain_erase k c); by destruct He.
Qed.

Lemma Find_Erase_ne k k' m b m' :
  Map.Erase hash_ k m = Some (b, m') → k' ≠ k →
  Map.Find hash_ k' m' = Map.Find hash_ k' m.
Proof.
  intros (c & Hc & Hsz & He)%Erase_Some Hne.
  destruct (Map.chain_erase k c) as [c'|] eqn:E; destruct He as [-> ->]; [|done].
  rewrite (Find_store _ _ _ c) by done. case_decide as Hi; [|done].
  rewrite (chain_find_erase_ne _ _ _ _ E) by done.
  symmetry. apply Find_index; [|done]. by rewrite Hi.
Qed.

Lemma Erase_shaped k m b m' :
  Map.Erase hash_ k m = Some (b, m') → Map.shaped m → Map.shaped m'.
Proof.
  intros (c & Hc & Hsz & He)%Erase_Some.
  destruct (Map.chain_erase k c); destruct He as [-> ->]; [|done].
  apply shaped_store.
Qed.

Lemma Erase_typed k m b m' :
  Map.Erase hash_ k m = Some (b, m') → Map.typed m → Map.typed m'.
Proof.
  intros (c & Hc & Hsz & He)%Erase_Some.
  destruct (Map.chain_erase k c); destruct He as [-> ->]; [|done].
  intros [? ?]. split; cbn; auto using decr64_typed.
Qed.

Lemma Erase_no_duplicates k m b m' :
  Map.Erase hash_ k m = Some (b, m') →
  Map.no_duplicates m → Map.no_duplicates m'.
Proof.
  intros (c & Hc & Hsz & He)%Erase_Some Hnd.
  destruct (Map.chain_erase k c) as [c'|] eqn:E; destruct He as [-> ->]; [|done].
  apply no_duplicates_store; [done|].
  pose proof (proj1 (Forall_lookup _ _) Hnd _ _ Hc) as Hndc. cbn in Hndc.
  by apply (chain_erase_NoDup _ _ _ E).
Qed.

Lemma Erase_placed k m b m' :
  Map.Erase hash_ k m = Some (b, m') →
  Map.placed hash_ m → Map.placed hash_ m'.
Proof.
  intros (c & Hc & Hsz & He)%Erase_Some.
  destruct (Map.chain_erase k c) as [c'|] eqn:E; destruct He as [-> ->]; [|done].
  apply (placed_store k _ _ c); [done..|].
  intros k' Hin. left. by eapply chain_erase_keys.
Qed.

Lemma Erase_wf k m b m' :
  Map.Erase hash_ k m = Some (b, m') → Map.wf hash_ m → Map.wf hash_ m'.
Proof.
  intros He (?&?&?&?).
  split_and!; eauto using Erase_shaped, Erase_typed, Erase_no_duplicates,
    Erase_placed.
Qed.

Lemma Erase_live_nodes k m m' :
  Map.Erase hash_ k m = Some (true, m') →
  Map.live_nodes m = S (Map.live_nodes m').
Proof.
  intros (c & Hc & Hsz & He)%Erase_Some.
  destruct (Map.chain_erase k c) as [c'|] eqn:E; destruct He as [? ->]; [|done].
  pose proof (live_nodes_store m (Map.index hash_ k m) c c'
    (decr64 (Map.count_ m)) Hc) as Hlen.
  rewrite (chain_erase_length _ _ _ E) in Hlen. lia.
Qed.

Lemma Erase_counted k m b m' :
  Map.Erase hash_ k m = Some (b, m') →
  Map.typed m → Map.counted m → Map.counted m'.
Proof.
  intros He [_ Hty] Hcnt. destruct b; [|by rewrite (Erase_absent _ _ _ He)].
  pose proof (Erase_live_nodes _ _ _ He) as Hlen.
  destruct (Erase_answer _ _ _ _ He) as (_ & _ & Hcount).
  unfold Map.counted, is_uint64 in *. rewrite Hcount, decr64_small; lia.
Qed.

Lemma Contains_Erase k m b m' :
  Map.Erase hash_ k m = Some (b, m') → Map.no_duplicates m →
  Map.Contains hash_ k m' = Some false.
Proof.
  intros He Hnd. destruct b; cycle 1.
  { rewrite (Erase_absent _ _ _ He). by apply Erase_answer in He as [? _]. }
  apply Erase_Some in He as (c & Hc & Hsz & He).
  destruct (Map.chain_erase k c) as [c'|] eqn:E; destruct He as [? ->]; [|done].
  pose proof (proj1 (Forall_lookup _ _) Hnd _ _ Hc) as Hndc. cbn in Hndc.
  rewrite Contains_Find, (Find_store _ _ _ c) by done.
  rewrite decide_True by done. cbn. f_equal. apply bool_decide_eq_false.
  rewrite chain_find_keys. by apply (chain_erase_NoDup _ _ _ E).
Qed.

(** ** The constructor *)

Lemma Map_shaped n : 0 < n → Map.shaped (Map.Map (K:=K) (V:=V) n).
Proof. intros Hn. split; cbn; [done|]. rewrite length_replicate. lia. Qed.

Lemma Map_wf n : 0 < n < uint64_mod → Map.wf hash_ (Map.Map (K:=K) (V:=V) n).
Proof.
  intros Hn. split_and!.
  - apply Map_shaped. lia.
  - split; cbn; unfold is_uint64; [lia|done].
  - apply Forall_replicate. apply NoDup_nil_2.
  - intros i c k. cbn. intros [-> _]%lookup_replicate ?%elem_of_nil. done.
Qed.

Lemma Map_counted n : Map.counted (Map.Map (K:=K) (V:=V) n).
Proof.
  unfold Map.counted, Map.live_nodes, Map.nodes. cbn.
  induction (Z.to_nat n) as [|? IH]; [done|]. cbn. done.
Qed.

Lemma Map_Find n k : 0 < n → Map.Find hash_ k (Map.Map (V:=V) n) = Some None.
Proof.
  intros Hn. destruct (Find_Some k _ (Map_shaped n Hn)) as (c & Hc & -> & _).
  cbn in Hc. by apply lookup_replicate in Hc as [-> _].
Qed.

Lemma Insert_live_nodes k v r m b m' :
  Map.Insert hash_ k v r m = Some (b, m') →
  ∃ p, Map.Contains hash_ k m = Some p ∧
       Map.live_nodes m' = if p then Map.live_nodes m else S (Map.live_nodes m).
Proof.
  intros Hi. destruct (Insert_answer _ _ _ _ _ _ Hi) as (p & Hp & _).
  exists p. split; [done|].
  apply Insert_Some in Hi as (c & Hc & Hsz & _ & ->).
  pose proof (live_nodes_store m (Map.index hash_ k m) c
    (Map.chain_insert k v r c).2
    (created (Map.chain_insert k v r c).1 (Map.count_ m)) Hc) as Hlen.
  rewrite chain_insert_length in Hlen.
  unfold Map.Contains, Map.bucket_of in Hp. rewrite decide_False in Hp by done.
  cbn zeta in Hp. rewrite Hc in Hp. injection Hp as <-.
  rewrite chain_contains_keys. case_decide.
  - rewrite bool_decide_eq_true_2 by done. lia.
  - rewrite bool_decide_eq_false_2 by done. lia.
Qed.

(** ** All nodes of a table *)

Lemma wf_nodes_NoDup m : Map.wf hash_ m → NoDup (Map.keys (Map.nodes m)).
Proof.
  intros (_ & _ & Hnd & Hpl).
  apply (concat_keys_NoDup (fun k => Map.index hash_ k m) _ 0%nat); [done|].
  intros i c k Hi Hk. by apply (Hpl i c k).
Qed.

Lemma wf_Find_nodes k m :
  Map.wf hash_ m → Map.Find hash_ k m = Some (Map.chain_find k (Map.nodes m)).
Proof.
  intros (Hs & _ & _ & Hpl). destruct (Find_Some k m Hs) as (c & Hc & -> & _).
  f_equal. symmetry. apply (chain_find_concat _ _ _ _ Hc).
  intros j c' Hj Hk. symmetry. by apply (Hpl j c' k).
Qed.

(** ** Sequences of operations *)

Lemma step_total o m : Map.shaped m → is_Some (Map.step hash_ o m).
Proof.
  intros Hs. destruct o as [k v r|k|k]; cbn.
  - by apply Insert_total.
  - by apply Erase_total.
  - destruct (Find_Some k m Hs) as (c & _ & _ & ->). by eexists.
Qed.

Lemma step_shaped o m b m' :
  Map.step hash_ o m = Some (b, m') → Map.shaped m → Map.shaped m'.
Proof.
  destruct o as [k v r|k|k]; cbn.
  - apply Insert_shaped.
  - apply Erase_shaped.
  - destruct (Map.Contains hash_ k m); [|done]. by intros [= _ <-].
Qed.

Lemma step_no_duplicates o m b m' :
  Map.step hash_ o m = Some (b, m') →
  Map.no_duplicates m → Map.no_duplicates m'.
Proof.
  destruct o as [k v r|k|k]; cbn.
  - apply Insert_no_duplicates.
  - apply Erase_no_duplicates.
  - destruct (Map.Contains hash_ k m); [|done]. by intros [= _ <-].
Qed.

Lemma not_erased_cons k (o : Map.op K V) ops :
  Map.not_erased k (o :: ops) ↔ o ≠ Map.OErase k ∧ Map.not_erased k ops.
Proof.
  unfold Map.not_erased. split.
  - intros Hne. split.
    + intros ->. by apply (Hne 0%nat).
    + intros j. apply (Hne (S j)).
  - intros [Ho Hne] [|j]; cbn; [congruence|apply Hne].
Qed.

Lemma inserted_last_cons k (o : Map.op K V) ops b bs :
  Map.inserted_last k (o :: ops) (b :: bs) ↔
  Map.inserted_last k ops bs ∨
  ((∃ v r, o = Map.OInsert k v r) ∧ b = true ∧ Map.not_erased k ops).
Proof.
  unfold Map.inserted_last, Map.not_erased. split.
  - intros ([|i] & v & r & Ho & Hb & Hlast); cbn in *.
    + right. injection Ho as ->. injection Hb as ->. split_and!; eauto.
      intros j. apply (Hlast (S j)). lia.
    + left. exists i, v, r. split_and!; [done..|].
      intros j Hj. apply (Hlast (S j)). lia.
  - intros [(i & v & r & Ho & Hb & Hlast)|((v & r & ->) & -> & Hne)].
    + exists (S i), v, r. split_and!; [done..|].
      intros [|j] Hj; [lia|]. cbn. apply Hlast. lia.
    + exists 0%nat, v, r. split_and!; [done..|].
      intros [|j] Hj; [lia|]. cbn. apply Hne.
Qed.

Lemma Contains_ne k m m' :
  Map.Find hash_ k m' = Map.Find hash_ k m →
  Map.Contains hash_ k m' = Map.Contains hash_ k m.
Proof. intros Hf. by rewrite !Contains_Find, Hf. Qed.

(** The state after [ops], from any table with one bucket per index and
    no duplicate. *)
Lemma run_Contains ops : ∀ m0,
  Map.shaped m0 → Map.no_duplicates m0 →
  ∃ answers m,
    Map.run hash_ ops m0 = Some (answers, m) ∧
    Map.shaped m ∧ Map.no_duplicates m ∧
    ∀ k, Map.Contains hash_ k m = Some true ↔
         Map.inserted_last k ops answers ∨
         (Map.Contains hash_ k m0 = Some true ∧ Map.not_erased k ops).
Proof.
  induction ops as [|o ops IH]; intros m0 Hs Hnd.
  - exists [], m0. split_and!; [done..|]. intros k. split.
    + intros Hk. right. split; [done|]. by intros j.
    + intros [(i & v & r & Ho & _)|[Hk _]]; [done|done].
  - destruct (step_total o m0 Hs) as [[b m1] Hstep].
    pose proof (step_shaped _ _ _ _ Hstep Hs) as Hs1.
    pose proof (step_no_duplicates _ _ _ _ Hstep Hnd) as Hnd1.
    destruct (IH m1 Hs1 Hnd1) as (bs & m & Hrun & Hsm & Hndm & Hk).
    exists (b :: bs), m. cbn [Map.run]. rewrite Hstep. cbn. rewrite Hrun. cbn.
    split_and!; [done..|]. intros k.
    rewrite Hk, inserted_last_cons, not_erased_cons.
    destruct o as [k' v r|k'|k']; cbn in Hstep.
    + destruct (decide (k' = k)) as [->|Hne].
      * rewrite (Contains_Insert _ _ _ _ _ _ Hstep).
        destruct (Insert_answer _ _ _ _ _ _ Hstep) as (p & Hp & Hb & _).
        rewrite Hp. destruct b.
        -- split; [|tauto]. intros [?|[_ ?]]; [tauto|]. left. right. eauto.
        -- destruct p; [|by destruct r]. split; [|tauto].
           intros [?|[_ ?]]; [tauto|]. right. done.
      * rewrite (Contains_ne _ _ _ (Find_Insert_ne _ _ _ _ _ _ _ Hstep (not_eq_sym Hne))).
        split; [intros [?|[? ?]]; [tauto|]; right; split_and!; done|].
        intros [[?|[(v' & r' & [=]) _]]|(? & _ & ?)]; [tauto|congruence|tauto].
    + destruct (decide (k' = k)) as [->|Hne].
      * rewrite (Contains_Erase _ _ _ _ Hstep Hnd).
        split; [intros [?|[[=] _]]; tauto|].
        intros [[?|[(v' & r' & [=]) _]]|(_ & ? & _)]; [tauto|done].
      * rewrite (Contains_ne _ _ _ (Find_Erase_ne _ _ _ _ _ Hstep (not_eq_sym Hne))).
        split; [intros [?|[? ?]]; [tauto|]; right; split_and!; [done| |done]; congruence|].
        intros [[?|[(v' & r' & [=]) _]]|(? & _ & ?)]; tauto.
    + destruct (Map.Contains hash_ k' m0); [|done]. injection Hstep as <- <-.
      split; [intros [?|[? ?]]; [tauto|]; right; split_and!; done|].
      intros [[?|[(v' & r' & [=]) _]]|(? & _ & ?)]; tauto.
Qed.

(** ** The point operations in terms of [Find] *)

Lemma Contains_of_Find k m o :
  Map.Find hash_ k m = Some o →
  Map.Contains hash_ k m = Some (bool_decide (is_Some o)).
Proof. intros Hf. by rewrite Contains_Find, Hf. Qed.

Lemma Find_of_Contains_false k m :
  Map.Contains hash_ k m = Some false → Map.Find hash_ k m = Some None.
Proof.
  rewrite Contains_Find. by destruct (Map.Find hash_ k m) as [[v|]|]; cbn.
Qed.

Lemma Insert_new k v r m :
  Map.Find hash_ k m = Some None →
  ∃ m', Map.Insert hash_ k v r m = Some (true, m') ∧
        Map.Find hash_ k m' = Some (Some v) ∧
        Map.Size m' = incr64 (Map.Size m) ∧
        ∀ k', k' ≠ k → Map.Find hash_ k' m' = Map.Find hash_ k' m.
Proof.
  intros Hf. pose proof (Contains_of_Find _ _ _ Hf) as Hc.
  rewrite bool_decide_eq_false_2 in Hc by by intros [? [=]].
  destruct (Insert_defined k v r m) as [[b m'] Hi]; [by eexists|].
  destruct (Insert_answer _ _ _ _ _ _ Hi) as (p & Hp & -> & Hcnt & _).
  rewrite Hc in Hp. injection Hp as <-. rewrite orb_true_r in Hi.
  exists m'. split_and!; [done|by eapply Find_Insert_eq|done|].
  intros k' Hne. by eapply Find_Insert_ne.
Qed.

Lemma Insert_replace k v v0 m :
  Map.Find hash_ k m = Some (Some v0) →
  ∃ m', Map.Insert hash_ k v true m = Some (true, m') ∧
        Map.Find hash_ k m' = Some (Some v) ∧
        Map.Size m' = Map.Size m ∧
        ∀ k', k' ≠ k → Map.Find hash_ k' m' = Map.Find hash_ k' m.
Proof.
  intros Hf. pose proof (Contains_of_Find _ _ _ Hf) as Hc.
  rewrite bool_decide_eq_true_2 in Hc by by eexists.
  destruct (Insert_defined k v true m) as [[b m'] Hi]; [by eexists|].
  destruct (Insert_answer _ _ _ _ _ _ Hi) as (p & Hp & -> & Hcnt & _).
  rewrite Hc in Hp. injection Hp as <-. cbn in Hi.
  exists m'. split_and!; [done|by eapply Find_Insert_eq|done|].
  intros k' Hne. by eapply Find_Insert_ne.
Qed.

Lemma Insert_keep k v v0 m :
  Map.Find hash_ k m = Some (Some v0) →
  Map.Insert hash_ k v false m = Some (false, m).
Proof.
  intros Hf. pose proof (Contains_of_Find _ _ _ Hf) as Hc.
  rewrite bool_decide_eq_true_2 in Hc by by eexists.
  destruct (Insert_defined k v false m) as [[b m'] Hi]; [by eexists|].
  destruct (Insert_answer _ _ _ _ _ _ Hi) as (p & Hp & -> & _).
  rewrite Hc in Hp. injection Hp as <-. cbn in Hi.
  by rewrite Hi, (Insert_refused _ _ _ _ _ Hi).
Qed.

Lemma Erase_present k m :
  Map.Contains hash_ k m = Some true → Map.no_duplicates m →
  ∃ m', Map.Erase hash_ k m = Some (true, m') ∧
        Map.Find hash_ k m' = Some None ∧
        Map.Size m' = decr64 (Map.Size m) ∧
        Map.live_nodes m = S (Map.live_nodes m') ∧
        ∀ k', k' ≠ k → Map.Find hash_ k' m' = Map.Find hash_ k' m.
Proof.
  intros Hc Hnd. destruct (Erase_defined k m) as [[b m'] He]; [by eexists|].
  destruct (Erase_answer _ _ _ _ He) as (Hb & _ & Hcnt).
  rewrite Hc in Hb. injection Hb as <-. exists m'.
  split_and!; [done| |done|by eapply Erase_live_nodes|].
  - apply Find_of_Contains_false. by eapply Contains_Erase.
  - intros k' Hne. by eapply Find_Erase_ne.
Qed.

Lemma Erase_missing k m :
  Map.Contains hash_ k m = Some false →
  Map.Erase hash_ k m = Some (false, m).
Proof.
  intros Hc. destruct (Erase_defined k m) as [[b m'] He]; [by eexists|].
  destruct (Erase_answer _ _ _ _ He) as (Hb & _).
  rewrite Hc in Hb. injection Hb as <-.
  by rewrite He, (Erase_absent _ _ _ He).
Qed.

Lemma step_wf o m b m' :
  Map.step hash_ o m = Some (b, m') → Map.wf hash_ m → Map.wf hash_ m'.
Proof.
  destruct o as [k v r|k|k]; cbn.
  - apply Insert_wf.
  - apply Erase_wf.
  - destruct (Map.Contains hash_ k m); [|done]. by intros [= _ <-].
Qed.

Lemma step_counted o m b m' :
  Map.step hash_ o m = Some (b, m') →
  Map.typed m → Map.counted m → Map.Size m < uint64_mod - 1 →
  Map.counted m' ∧ (Map.live_nodes m' ≤ S (Map.live_nodes m))%nat.
Proof.
  destruct o as [k v r|k|k]; cbn; intros Hstep Hty Hcnt Hroom.
  - split; [by eapply Insert_counted|].
    destruct (Insert_live_nodes _ _ _ _ _ _ Hstep) as (p & _ & ->).
    destruct p; lia.
  - split; [by eapply Erase_counted|]. destruct b.
    + pose proof (Erase_live_nodes _ _ _ Hstep). lia.
    + rewrite (Erase_absent _ _ _ Hstep). lia.
  - destruct (Map.Contains hash_ k m); [|done]. injection Hstep as _ <-.
    split; [done|lia].
Qed.

(** The counter follows the nodes along any sequence that is shorter than
    the range of the counter. *)
Lemma run_counted ops : ∀ m0 answers m,
  Map.run hash_ ops m0 = Some (answers, m) →
  Map.wf hash_ m0 → Map.counted m0 →
  Z.of_nat (Map.live_nodes m0 + length ops) < uint64_mod →
  Map.wf hash_ m ∧ Map.counted m.
Proof.
  induction ops as [|o ops IH]; intros m0 answers m.
  - by intros [= <- <-].
  - cbn [Map.run length].
    destruct (Map.step hash_ o m0) as [[b m1]|] eqn:Hstep; [|done]. cbn.
    destruct (Map.run hash_ ops m1) as [[bs m2]|] eqn:Hrun; [|done]. cbn.
    intros [= <- <-] Hwf Hcnt Hroom.
    destruct (step_counted _ _ _ _ Hstep) as [Hcnt1 Hlive]; [apply Hwf|done| |].
    { unfold Map.counted, Map.Size in *. lia. }
    apply (IH m1 bs m2 Hrun); [by eapply step_wf|done|lia].
Qed.

Lemma wf_keys_Contains k m :
  Map.wf hash_ m →
  k ∈ Map.keys (Map.nodes m) ↔ Map.Contains hash_ k m = Some true.
Proof.
  intros Hwf. rewrite Contains_Find, (wf_Find_nodes k m Hwf). cbn.
  rewrite <-chain_find_keys. split.
  - intros Hk. f_equal. by apply bool_decide_eq_true.
  - intros [= Hk]. by apply bool_decide_eq_true in Hk.
Qed.

End map_facts.

(** * The set simulates the map to [unit] *)

Section set_facts.
Context {V : Type} `{EqDecision V} {move : Move V}.
Variable hash_ : V -> Z.
Implicit Types (v : V) (c : list V) (s : HashSet.t V).

Lemma lift_cons v c :
  HashSet.lift (v :: c) = Map.mkNode v tt :: HashSet.lift c.
Proof. done. Qed.

Lemma keys_lift c : Map.keys (HashSet.lift c) = c.
Proof.
  induction c as [|x c IH]; [done|]. by rewrite lift_cons, keys_cons, IH.
Qed.

Lemma lift_inj c1 c2 : HashSet.lift c1 = HashSet.lift c2 → c1 = c2.
Proof. intros Hl. by rewrite <-(keys_lift c1), Hl, keys_lift. Qed.

Lemma to_map_inj s1 s2 : HashSet.to_map s1 = HashSet.to_map s2 → s1 = s2.
Proof.
  destruct s1 as [z1 n1 d1], s2 as [z2 n2 d2]. unfold HashSet.to_map. cbn.
  intros [= -> -> Hd]. f_equal. revert d2 Hd.
  induction d1 as [|c1 d1 IH]; intros [|c2 d2]; cbn; try done.
  intros [= Hc%lift_inj Hd%IH]. by subst.
Qed.

Lemma chain_contains_lift v c :
  Map.chain_contains v (HashSet.lift c) = HashSet.chain_contains v c.
Proof.
  induction c as [|x c IH]; [done|]. rewrite lift_cons. cbn.
  by destruct (decide (x = v)).
Qed.

Lemma chain_insert_lift v c :
  Map.chain_insert v tt false (HashSet.lift c) =
    match HashSet.chain_insert v v c with
    | Some c' => (Created, HashSet.lift c')
    | None => (Refused, HashSet.lift c)
    end.
Proof.
  induction c as [|x c IH]; [done|]. rewrite lift_cons. cbn.
  destruct (decide (x = v)); [done|]. rewrite IH.
  by destruct (HashSet.chain_insert v v c).
Qed.

Lemma chain_erase_lift v c :
  Map.chain_erase v (HashSet.lift c) = HashSet.lift <$> HashSet.chain_erase v c.
Proof.
  induction c as [|x c IH]; [done|]. rewrite lift_cons. cbn.
  destruct (decide (x = v)); [done|]. rewrite IH.
  by destruct (HashSet.chain_erase v c).
Qed.

Lemma bucket_of_to_map v s :
  Map.bucket_of hash_ v (HashSet.to_map s) =
    prod_map id HashSet.lift <$> HashSet.bucket_of hash_ v s.
Proof.
  unfold Map.bucket_of, HashSet.bucket_of, Map.index, HashSet.index. cbn.
  case_decide; [done|]. rewrite list_lookup_fmap.
  by destruct (HashSet.data_ s !! _).
Qed.

Lemma Contains_to_map v s :
  Map.Contains hash_ v (HashSet.to_map s) = HashSet.Contains hash_ v s.
Proof.
  unfold Map.Contains, HashSet.Contains. rewrite bucket_of_to_map.
  destruct (HashSet.bucket_of hash_ v s) as [[h c]|]; [|done].
  cbn. by rewrite chain_contains_lift.
Qed.

Lemma to_map_store s h c' cnt :
  HashSet.to_map (HashSet.mkSet (HashSet.size_ s) cnt (<[h:=c']> (HashSet.data_ s))) =
  Map.mkMap (Map.size_ (HashSet.to_map s)) cnt
    (<[h:=HashSet.lift c']> (Map.data_ (HashSet.to_map s))).
Proof. unfold HashSet.to_map. cbn. by rewrite list_fmap_insert. Qed.

Lemma Insert_to_map v s :
  snd <$> Map.Insert hash_ v tt false (HashSet.to_map s) =
  HashSet.to_map ∘ snd <$> HashSet.Insert hash_ false v s.
Proof.
  unfold Map.Insert, HashSet.Insert, HashSet.forwarded. cbn iota zeta.
  rewrite bucket_of_to_map.
  destruct (HashSet.bucket_of hash_ v s) as [[h c]|]; [|done].
  cbn. rewrite chain_insert_lift.
  destruct (HashSet.chain_insert v v c) as [c'|]; [|done].
  cbn. by rewrite to_map_store.
Qed.

Lemma Erase_to_map v s :
  Map.Erase hash_ v (HashSet.to_map s) =
  prod_map id HashSet.to_map <$> HashSet.Erase hash_ v s.
Proof.
  unfold Map.Erase, HashSet.Erase. rewrite bucket_of_to_map.
  destruct (HashSet.bucket_of hash_ v s) as [[h c]|]; [|done].
  cbn. rewrite chain_erase_lift.
  destruct (HashSet.chain_erase v c) as [c'|]; [|done].
  cbn. by rewrite to_map_store.
Qed.

Lemma Set_to_map n : HashSet.to_map (HashSet.Set_ (V:=V) n) = Map.Map n.
Proof. unfold HashSet.to_map, Map.Map. cbn. by rewrite fmap_replicate. Qed.

(** ** The invariants carry over *)

Lemma shaped_to_map s : Map.shaped (HashSet.to_map s) ↔ HashSet.shaped s.
Proof. unfold Map.shaped, HashSet.shaped. cbn. by rewrite length_fmap. Qed.

Lemma typed_to_map s : Map.typed (HashSet.to_map s) ↔ HashSet.typed s.
Proof. done. Qed.

Lemma no_duplicates_to_map s :
  Map.no_duplicates (HashSet.to_map s) ↔ HashSet.no_duplicates s.
Proof.
  unfold Map.no_duplicates, HashSet.no_duplicates. cbn.
  rewrite Forall_fmap. apply Forall_proper; [|done]. intros c. cbn.
  by rewrite keys_lift.
Qed.

Lemma placed_to_map s :
  Map.placed hash_ (HashSet.to_map s) ↔ HashSet.placed hash_ s.
Proof.
  unfold Map.placed, HashSet.placed, Map.index, HashSet.index. cbn. split.
  - intros Hp i c v Hi Hv. apply (Hp i (HashSet.lift c)).
    + by rewrite list_lookup_fmap, Hi.
    + by rewrite keys_lift.
  - intros Hp i c v. rewrite list_lookup_fmap.
    destruct (HashSet.data_ s !! i) as [c0|] eqn:Hi; [|done].
    intros [= <-]. rewrite keys_lift. by apply Hp.
Qed.

Lemma wf_to_map s : Map.wf hash_ (HashSet.to_map s) ↔ HashSet.wf hash_ s.
Proof.
  unfold Map.wf, HashSet.wf.
  by rewrite shaped_to_map, typed_to_map, no_duplicates_to_map, placed_to_map.
Qed.

Lemma live_nodes_to_map s :
  Map.live_nodes (HashSet.to_map s) = HashSet.live_nodes s.
Proof.
  unfold Map.live_nodes, HashSet.live_nodes, Map.nodes, HashSet.nodes. cbn.
  induction (HashSet.data_ s) as [|c d IH]; [done|]. cbn.
  rewrite !length_app, IH. unfold HashSet.lift. by rewrite length_fmap.
Qed.

Lemma counted_to_map s : Map.counted (HashSet.to_map s) ↔ HashSet.counted s.
Proof. unfold Map.counted, HashSet.counted. by rewrite live_nodes_to_map. Qed.

(** ** The operations of the set, through the map

    [Insert] with an argument that the forward leaves as it is
    ([rvalue = false]) is [Insert] of the map with [replace = false]. *)

Lemma Insert_set_Some v s u s' :
  HashSet.Insert hash_ false v s = Some (u, s') →
  ∃ b, Map.Insert hash_ v tt false (HashSet.to_map s) = Some (b, HashSet.to_map s').
Proof.
  intros Hi. pose proof (Insert_to_map v s) as Hsim. rewrite Hi in Hsim.
  destruct (Map.Insert hash_ v tt false (HashSet.to_map s)) as [[b m']|]; [|done].
  injection Hsim as ->. by exists b.
Qed.

Lemma Insert_set_total v s :
  HashSet.shaped s → ∃ s', HashSet.Insert hash_ false v s = Some (tt, s').
Proof.
  intros Hs%shaped_to_map.
  destruct (Insert_total hash_ v tt false _ Hs) as [[b m'] Hi].
  pose proof (Insert_to_map v s) as Hsim. rewrite Hi in Hsim.
  destruct (HashSet.Insert hash_ false v s) as [[[] s']|]; [|done]. by exists s'.
Qed.

Lemma Erase_set_Some v s b s' :
  HashSet.Erase hash_ v s = Some (b, s') →
  Map.Erase hash_ v (HashSet.to_map s) = Some (b, HashSet.to_map s').
Proof. intros He. by rewrite Erase_to_map, He. Qed.

Lemma Erase_set_total v s :
  HashSet.shaped s → is_Some (HashSet.Erase hash_ v s).
Proof.
  intros Hs%shaped_to_map.
  destruct (Erase_total hash_ v _ Hs) as [[b m'] He].
  rewrite Erase_to_map in He.
  destruct (HashSet.Erase hash_ v s); [by eexists|done].
Qed.

Lemma Insert_set_defined v s :
  is_Some (HashSet.Contains hash_ v s) →
  ∃ s', HashSet.Insert hash_ false v s = Some (tt, s').
Proof.
  unfold HashSet.Contains, HashSet.Insert, HashSet.forwarded. cbn iota zeta.
  destruct (HashSet.bucket_of hash_ v s) as [[h c]|]; [|by intros [? [=]]].
  intros _. cbn. destruct (HashSet.chain_insert v v c); eauto.
Qed.

Lemma Insert_set_present v s :
  HashSet.Contains hash_ v s = Some true →
  HashSet.Insert hash_ false v s = Some (tt, s).
Proof.
  intros Hc. destruct (Insert_set_defined v s) as [s' Hi]; [by eexists|].
  rewrite Hi. destruct (Insert_set_Some _ _ _ _ Hi) as [b Hm].
  destruct (Insert_answer _ _ _ _ _ _ _ Hm) as (p & Hp & -> & _).
  rewrite Contains_to_map, Hc in Hp. injection Hp as <-.
  apply Insert_refused, to_map_inj in Hm. by subst.
Qed.

Lemma Insert_set_absent v s :
  HashSet.Contains hash_ v s = Some false →
  ∃ s', HashSet.Insert hash_ false v s = Some (tt, s') ∧
        HashSet.Contains hash_ v s' = Some true ∧
        HashSet.Size s' = incr64 (HashSet.Size s) ∧
        HashSet.size_ s' = HashSet.size_ s ∧
        HashSet.live_nodes s' = S (HashSet.live_nodes s) ∧
        ∀ w, w ≠ v → HashSet.Contains hash_ w s' = HashSet.Contains hash_ w s.
Proof.
  intros Hc. destruct (Insert_set_defined v s) as [s' Hi]; [by eexists|].
  exists s'. destruct (Insert_set_Some _ _ _ _ Hi) as [b Hm].
  destruct (Insert_answer _ _ _ _ _ _ _ Hm) as (p & Hp & -> & Hcount & Hsz).
  destruct (Insert_live_nodes _ _ _ _ _ _ _ Hm) as (p' & Hp' & Hlive).
  rewrite Contains_to_map, Hc in Hp, Hp'. injection Hp as <-. injection Hp' as <-.
  rewrite !live_nodes_to_map in Hlive.
  split_and!; [done| |done|done|done|].
  - rewrite <-Contains_to_map. by eapply Contains_Insert.
  - intros w Hne. rewrite <-!Contains_to_map. apply Contains_ne.
    by eapply Find_Insert_ne.
Qed.

Lemma Insert_set_no_duplicates v s u s' :
  HashSet.Insert hash_ false v s = Some (u, s') →
  HashSet.no_duplicates s → HashSet.no_duplicates s'.
Proof.
  intros [b Hi]%Insert_set_Some Hnd%no_duplicates_to_map.
  apply no_duplicates_to_map. by eapply Insert_no_duplicates.
Qed.

Lemma Erase_set_no_duplicates v s b s' :
  HashSet.Erase hash_ v s = Some (b, s') →
  HashSet.no_duplicates s → HashSet.no_duplicates s'.
Proof.
  intros He%Erase_set_Some Hnd%no_duplicates_to_map.
  apply no_duplicates_to_map. by eapply Erase_no_duplicates.
Qed.

Lemma Erase_set_counted v s b s' :
  HashSet.Erase hash_ v s = Some (b, s') →
  HashSet.typed s → HashSet.counted s → HashSet.counted s'.
Proof.
  intros He%Erase_set_Some Hty%typed_to_map Hc%counted_to_map.
  apply counted_to_map. by eapply Erase_counted.
Qed.

Lemma Erase_set_missing v s :
  HashSet.Contains hash_ v s = Some false →
  HashSet.Erase hash_ v s = Some (false, s).
Proof.
  intros Hc. rewrite <-Contains_to_map in Hc.
  pose proof (Erase_missing _ _ _ Hc) as He. rewrite Erase_to_map in He.
  destruct (HashSet.Erase hash_ v s) as [[b s']|]; [|done]. cbn in He.
  assert (b = false ∧ HashSet.to_map s' = HashSet.to_map s)
    as [-> ->%to_map_inj] by (split; congruence).
  done.
Qed.

Lemma Erase_set_present v s :
  HashSet.Contains hash_ v s = Some true → HashSet.no_duplicates s →
  ∃ s', HashSet.Erase hash_ v s = Some (true, s') ∧
        HashSet.Contains hash_ v s' = Some false ∧
        HashSet.Size s' = decr64 (HashSet.Size s) ∧
        HashSet.live_nodes s = S (HashSet.live_nodes s') ∧
        ∀ w, w ≠ v → HashSet.Contains hash_ w s' = HashSet.Contains hash_ w s.
Proof.
  intros Hc Hnd. rewrite <-Contains_to_map in Hc.
  apply no_duplicates_to_map in Hnd.
  destruct (Erase_present _ _ _ Hc Hnd) as (m' & He & Hf & Hsz & Hlive & Hne).
  rewrite Erase_to_map in He.
  destruct (HashSet.Erase hash_ v s) as [[b s']|]; [|done].
  injection He as -> <-. exists s'. rewrite !live_nodes_to_map in Hlive.
  split_and!; [done| |done|done|].
  - rewrite <-Contains_to_map. by rewrite (Contains_of_Find _ _ _ _ Hf).
  - intros w Hw. rewrite <-!Contains_to_map. apply Contains_ne. by apply Hne.
Qed.

(** ** [Insert] with any argument *)

Lemma Insert_intact (rvalue : bool) v s :
  HashSet.forwarded rvalue v = v →
  HashSet.Insert hash_ rvalue v s = HashSet.Insert hash_ false v s.
Proof. intros Hf. unfold HashSet.Insert. by rewrite Hf. Qed.

Lemma set_chain_insert_Some (value : V) v c c' :
  HashSet.chain_insert value v c = Some c' → c' = c ++ [v] ∧ value ∉ c.
Proof.
  revert c'. induction c as [|x c IH]; intros c'; cbn.
  - intros [= <-]. split; [done|]. apply not_elem_of_nil.
  - destruct (decide (x = value)) as [|Hne]; [done|].
    destruct (HashSet.chain_insert value v c) as [c0|]; [|done].
    intros [= <-]. destruct (IH c0 eq_refl) as [-> Hnot]. split; [done|].
    rewrite not_elem_of_cons. split; [congruence|done].
Qed.

Lemma set_chain_insert_None (value : V) v c :
  HashSet.chain_insert value v c = None → value ∈ c.
Proof.
  induction c as [|x c IH]; cbn; [done|].
  destruct (decide (x = value)) as [->|Hne]; [intros _; apply elem_of_cons; by left|].
  destruct (HashSet.chain_insert value v c); [done|].
  intros _. apply elem_of_cons. right. by apply IH.
Qed.

Lemma set_bucket_of_shaped v s :
  HashSet.shaped s → is_Some (HashSet.bucket_of hash_ v s).
Proof.
  intros Hs%shaped_to_map.
  destruct (bucket_of_shaped hash_ v _ Hs) as (c & _ & Hb).
  rewrite bucket_of_to_map in Hb.
  destruct (HashSet.bucket_of hash_ v s); [by eexists|done].
Qed.

Lemma set_bucket_of_Some v s h c :
  HashSet.bucket_of hash_ v s = Some (h, c) →
  HashSet.size_ s ≠ 0 ∧ h = HashSet.index hash_ v s ∧ HashSet.data_ s !! h = Some c.
Proof.
  unfold HashSet.bucket_of. case_decide; [done|]. cbn zeta.
  destruct (HashSet.data_ s !! HashSet.index hash_ v s) as [c0|] eqn:E; [|done].
  by intros [= <- <-].
Qed.

(** What [Insert] leaves: the table as it was, or the new node behind the
    chain of the bucket that was walked and the counter one up. *)
Lemma Insert_any_Some (rvalue : bool) v s u s' :
  HashSet.Insert hash_ rvalue v s = Some (u, s') →
  (s' = s ∧
   ∃ h c, HashSet.bucket_of hash_ (HashSet.forwarded rvalue v) s = Some (h, c) ∧
          HashSet.forwarded rvalue v ∈ c) ∨
  (∃ h c, HashSet.bucket_of hash_ (HashSet.forwarded rvalue v) s = Some (h, c) ∧
          (HashSet.forwarded rvalue v ∉ c) ∧
          s' = HashSet.mkSet (HashSet.size_ s) (incr64 (HashSet.count_ s))
                 (<[h := c ++ [v]]> (HashSet.data_ s))).
Proof.
  unfold HashSet.Insert. cbn zeta.
  destruct (HashSet.bucket_of hash_ (HashSet.forwarded rvalue v) s)
    as [[h c]|] eqn:Hb; [|done].
  cbn. destruct (HashSet.chain_insert (HashSet.forwarded rvalue v) v c)
    as [c'|] eqn:Hci.
  - intros [= <- <-]. right. exists h, c.
    by destruct (set_chain_insert_Some _ _ _ _ Hci) as [-> Hnot].
  - intros [= <- <-]. left. split; [done|]. exists h, c. split; [done|].
    by eapply set_chain_insert_None.
Qed.

Lemma set_chain_contains_elem v c :
  HashSet.chain_contains v c = bool_decide (v ∈ c).
Proof. by rewrite <-chain_contains_lift, chain_contains_keys, keys_lift. Qed.

Lemma set_chain_insert_fresh (value : V) v c :
  value ∉ c → HashSet.chain_insert value v c = Some (c ++ [v]).
Proof.
  induction c as [|x c IH]; cbn; [done|].
  intros [Hx Hc]%not_elem_of_cons. rewrite decide_False by congruence.
  by rewrite IH.
Qed.

Lemma Insert_appends (rvalue : bool) v s h c :
  HashSet.bucket_of hash_ (HashSet.forwarded rvalue v) s = Some (h, c) →
  HashSet.forwarded rvalue v ∉ c →
  HashSet.Insert hash_ rvalue v s =
    Some (tt, HashSet.mkSet (HashSet.size_ s) (incr64 (HashSet.count_ s))
                (<[h := c ++ [v]]> (HashSet.data_ s))).
Proof.
  intros Hb Hc. unfold HashSet.Insert. cbn zeta. rewrite Hb. cbn.
  by rewrite set_chain_insert_fresh.
Qed.

Lemma Insert_any_total (rvalue : bool) v s :
  HashSet.shaped s → ∃ s', HashSet.Insert hash_ rvalue v s = Some (tt, s').
Proof.
  intros Hs. unfold HashSet.Insert. cbn zeta.
  destruct (set_bucket_of_shaped (HashSet.forwarded rvalue v) s Hs) as [[h c] ->].
  cbn. destruct (HashSet.chain_insert _ v c); eauto.
Qed.

Lemma Insert_any_size (rvalue : bool) v s u s' :
  HashSet.Insert hash_ rvalue v s = Some (u, s') →
  HashSet.size_ s' = HashSet.size_ s ∧
  length (HashSet.data_ s') = length (HashSet.data_ s).
Proof.
  intros [[-> _]|(h & c & _ & _ & ->)]%Insert_any_Some; [done|].
  cbn. by rewrite length_insert.
Qed.

Lemma Insert_any_shaped (rvalue : bool) v s u s' :
  HashSet.Insert hash_ rvalue v s = Some (u, s') →
  HashSet.shaped s → HashSet.shaped s'.
Proof.
  intros [Hsz Hlen]%Insert_any_size. unfold HashSet.shaped.
  by rewrite Hsz, Hlen.
Qed.

Lemma Insert_any_typed (rvalue : bool) v s u s' :
  HashSet.Insert hash_ rvalue v s = Some (u, s') →
  HashSet.typed s → HashSet.typed s'.
Proof.
  intros [[-> _]|(h & c & _ & _ & ->)]%Insert_any_Some; [done|].
  intros [Hsz _]. split; [done|]. apply incr64_typed.
Qed.

Lemma Insert_any_live_nodes (rvalue : bool) v s u s' :
  HashSet.Insert hash_ rvalue v s = Some (u, s') →
  (s' = s) ∨
  (HashSet.Size s' = incr64 (HashSet.Size s) ∧
   HashSet.live_nodes s' = S (HashSet.live_nodes s)).
Proof.
  intros [[-> _]|(h & c & Hb & _ & ->)]%Insert_any_Some; [by left|right].
  split; [done|]. apply set_bucket_of_Some in Hb as (_ & _ & Hc).
  unfold HashSet.live_nodes, HashSet.nodes. cbn.
  pose proof (length_concat_insert (HashSet.data_ s) h c (c ++ [v]) Hc) as Hl.
  rewrite length_app in Hl. cbn in Hl. lia.
Qed.

Lemma Insert_any_counted (rvalue : bool) v s u s' :
  HashSet.Insert hash_ rvalue v s = Some (u, s') →
  HashSet.counted s → HashSet.Size s < uint64_mod - 1 → HashSet.counted s'.
Proof.
  intros [->|[Hsz Hlive]]%Insert_any_live_nodes; [done|].
  unfold HashSet.counted, HashSet.Size in *. intros Hc Hroom.
  rewrite Hsz, Hlive, incr64_small; lia.
Qed.

End set_facts.

(** * The first version simulates [Insert] with [replace = true] *)

Section legacy_facts.
Context {K V : Type} `{EqDecision K}.
Variable hash_ : K -> Z.
Implicit Types (k : K) (v : V) (c : list (LegacyMap.Node K V)).
Implicit Types (ml : LegacyMap.t K V) (mr : Map.t K V).

Lemma up_cons (n : LegacyMap.Node K V) c :
  LegacyMap.up (n :: c) =
    Map.mkNode (LegacyMap.key n) (LegacyMap.val n) :: LegacyMap.up c.
Proof. done. Qed.

Lemma chain_find_up k c :
  Map.chain_find k (LegacyMap.up c) = LegacyMap.chain_find k c.
Proof.
  induction c as [|n c IH]; [done|]. rewrite up_cons. cbn.
  by destruct (decide (LegacyMap.key n = k)).
Qed.

Lemma chain_contains_up k c :
  Map.chain_contains k (LegacyMap.up c) = LegacyMap.chain_contains k c.
Proof.
  induction c as [|n c IH]; [done|]. rewrite up_cons. cbn.
  by destruct (decide (LegacyMap.key n = k)).
Qed.

Lemma chain_insert_up k v c :
  (Map.chain_insert k v true (LegacyMap.up c)).2 =
    LegacyMap.up (LegacyMap.chain_insert k v c).
Proof.
  induction c as [|n c IH]; [done|]. rewrite up_cons. cbn.
  destruct (decide (LegacyMap.key n = k)); [done|].
  destruct (Map.chain_insert k v true (LegacyMap.up c)) as [o c'] eqn:E.
  cbn in *. by rewrite up_cons, IH.
Qed.

Lemma chain_erase_up k c :
  Map.chain_erase k (LegacyMap.up c) =
    LegacyMap.up <$> LegacyMap.chain_erase k c.
Proof.
  induction c as [|n c IH]; [done|]. rewrite up_cons. cbn.
  destruct (decide (LegacyMap.key n = k)); [done|]. rewrite IH.
  by destruct (LegacyMap.chain_erase k c).
Qed.

Lemma bucket_of_sim k ml mr :
  LegacyMap.sim ml mr →
  Map.bucket_of hash_ k mr =
    prod_map id LegacyMap.up <$> LegacyMap.bucket_of hash_ k ml.
Proof.
  intros [Hsz Hd].
  unfold Map.bucket_of, LegacyMap.bucket_of, Map.index, LegacyMap.index.
  rewrite Hsz, Hd. case_decide; [done|]. cbn zeta. rewrite list_lookup_fmap.
  by destruct (LegacyMap.data_ ml !! _).
Qed.

Lemma Find_sim k ml mr :
  LegacyMap.sim ml mr →
  LegacyMap.Find hash_ k ml = Map.Find hash_ k mr ∧
  LegacyMap.Contains hash_ k ml = Map.Contains hash_ k mr.
Proof.
  intros Hsim. unfold Map.Find, Map.Contains, LegacyMap.Find, LegacyMap.Contains.
  rewrite (bucket_of_sim _ _ _ Hsim).
  destruct (LegacyMap.bucket_of hash_ k ml) as [[h c]|]; [|done]. cbn.
  by rewrite chain_find_up, chain_contains_up.
Qed.

Lemma Map_sim n : LegacyMap.sim (LegacyMap.Map (K:=K) (V:=V) n) (Map.Map n).
Proof. split; cbn; [done|]. by rewrite fmap_replicate. Qed.

(** One operation on either side of [sim]: both are undefined, or both
    answer alike and end in [sim]. *)
Lemma step_sim (o : LegacyMap.op K V) ml mr :
  LegacyMap.sim ml mr →
  match LegacyMap.step hash_ o ml, Map.step hash_ (LegacyMap.upgrade o) mr with
  | Some (a, ml'), Some (b, mr') => LegacyMap.agree a b ∧ LegacyMap.sim ml' mr'
  | None, None => True
  | _, _ => False
  end.
Proof.
  intros Hsim. pose proof Hsim as [Hsz Hd]. destruct o as [k v|k|k]; cbn.
  - unfold LegacyMap.Insert, Map.Insert. rewrite (bucket_of_sim _ _ _ Hsim).
    destruct (LegacyMap.bucket_of hash_ k ml) as [[h c]|]; [|done]. cbn.
    pose proof (chain_insert_up k v c) as Hup.
    pose proof (chain_insert_outcome k v true (LegacyMap.up c)) as Ho.
    destruct (Map.chain_insert k v true (LegacyMap.up c)) as [o c'].
    cbn in Hup, Ho. subst c'.
    destruct o; [| |by case_decide]; (split; [done|]); split; cbn;
      try done; by rewrite Hd, list_fmap_insert.
  - unfold LegacyMap.Erase, Map.Erase. rewrite (bucket_of_sim _ _ _ Hsim).
    destruct (LegacyMap.bucket_of hash_ k ml) as [[h c]|]; [|done]. cbn.
    rewrite chain_erase_up.
    destruct (LegacyMap.chain_erase k c) as [c'|]; cbn; [|done].
    split; [done|]. split; cbn; [done|]. by rewrite Hd, list_fmap_insert.
  - destruct (Find_sim k ml mr Hsim) as [_ ->].
    by destruct (Map.Contains hash_ k mr).
Qed.

Lemma run_sim (ops : list (LegacyMap.op K V)) : ∀ ml mr,
  LegacyMap.sim ml mr →
  match LegacyMap.run hash_ ops ml, Map.run hash_ (LegacyMap.upgrade <$> ops) mr with
  | Some (al, ml'), Some (ar, mr') =>
      Forall2 LegacyMap.agree al ar ∧ LegacyMap.sim ml' mr'
  | None, None => True
  | _, _ => False
  end.
Proof.
  induction ops as [|o ops IH]; intros ml mr Hsim; [by split|].
  cbn [LegacyMap.run Map.run fmap list_fmap].
  pose proof (step_sim o ml mr Hsim) as Hstep.
  destruct (LegacyMap.step hash_ o ml) as [[a ml1]|],
    (Map.step hash_ (LegacyMap.upgrade o) mr) as [[b mr1]|]; try done.
  destruct Hstep as [Hab Hsim1]. cbn. specialize (IH ml1 mr1 Hsim1).
  destruct (LegacyMap.run hash_ ops ml1) as [[al ml2]|],
    (Map.run hash_ (LegacyMap.upgrade <$> ops) mr1) as [[ar mr2]|]; try done.
  cbn. destruct IH as [Hall Hsim2]. split; [by constructor|done].
Qed.

End legacy_facts.

(** * Fresh tables and the example tables *)

Section fresh.
Context {K V : Type} `{EqDecision K}.
Variable hash_ : K -> Z.

Lemma Map_no_duplicates n : Map.no_duplicates (Map.Map (K:=K) (V:=V) n).
Proof. apply Forall_replicate, NoDup_nil_2. Qed.

Lemma Map_Contains n k :
  0 < n → Map.Contains hash_ k (Map.Map (V:=V) n) = Some false.
Proof. intros Hn. by rewrite Contains_Find, Map_Find. Qed.

(** A sequence run on a fresh table: it ends, in a well-formed table, and
    the keys of the nodes are the keys inserted last. *)
Lemma run_fresh n (ops : list (Map.op K V)) :
  0 < n →
  ∃ answers m,
    Map.run hash_ ops (Map.Map n) = Some (answers, m) ∧ Map.shaped m ∧
    ∀ k, Map.Contains hash_ k m = Some true ↔ Map.inserted_last k ops answers.
Proof.
  intros Hn.
  destruct (run_Contains hash_ ops (Map.Map n) (Map_shaped n Hn)
    (Map_no_duplicates n)) as (answers & m & Hrun & Hs & _ & Hk).
  exists answers, m. split_and!; [done..|]. intros k. rewrite Hk.
  rewrite Map_Contains by done. split; [by intros [?|[[=] _]]|by left].
Qed.

Lemma Set_counted n : HashSet.counted (HashSet.Set_ (V:=K) n).
Proof. apply counted_to_map. rewrite Set_to_map. apply Map_counted. Qed.

End fresh.

Lemma example_map_wf : Map.wf hash_id example_map.
Proof.
  split_and!.
  - by split.
  - by split.
  - repeat constructor; apply not_elem_of_nil.
  - intros [|[|i]] c k; cbn; try done; intros [= <-];
      rewrite keys_cons; intros [->|[]%elem_of_nil]%elem_of_cons; done.
Qed.

Lemma example_map_counted : Map.counted example_map.
Proof. done. Qed.

Lemma example_set_wf : HashSet.wf hash_id example_set.
Proof.
  split_and!.
  - by split.
  - by split.
  - repeat constructor; apply not_elem_of_nil.
  - intros [|[|i]] c k; cbn; try done; intros [= <-];
      intros [->|[]%elem_of_nil]%elem_of_cons; done.
Qed.

Lemma example_set_counted : HashSet.counted example_set.
Proof. done. Qed.

(** * The properties of the specification *)

(** ** Single-thread correctness *)

(** C1. For every finite sequence of Insert/Erase/Contains operations run
    one after the other on a freshly constructed table with at least one
    bucket, the sequence runs to its end, and [Contains k] on the final
    table answers [true] if and only if some [Insert] of [k] in the sequence
    answered [true] with no [Erase] of [k] after it. *)
Theorem Contains_iff_inserted_last {K V : Type} `{EqDecision K}
    (hash_ : K → Z) (size : Z) (ops : list (Map.op K V)) (k : K) :
  0 < size →
  ∃ answers m b,
    Map.run hash_ ops (Map.Map size) = Some (answers, m) ∧
    Map.Contains hash_ k m = Some b ∧
    (b = true ↔ Map.inserted_last k ops answers).
Proof.
  intros Hsize.
  destruct (run_Contains hash_ ops (Map.Map size)) as (answers & m & Hrun & Hs & _ & Hk).
  { by apply Map_shaped. }
  { apply Forall_replicate, NoDup_nil_2. }
  destruct (Find_Some hash_ k m Hs) as (c & _ & _ & Hc).
  exists answers, m, (Map.chain_contains k c). split_and!; [done..|].
  specialize (Hk k). rewrite Hc, (Contains_Find _ _ (Map.Map size)) in Hk.
  rewrite Map_Find in Hk by done. cbn in Hk. split.
  - intros Hb. rewrite Hb in Hk. by destruct (proj1 Hk eq_refl) as [?|[[=] _]].
  - intros Hlast. assert (Some (Map.chain_contains k c) = Some true) as [= ->]; [|done].
    apply Hk. by left.
Qed.

Lemma Contains_iff_inserted_last_witness :
  0 < 2 ∧
  ∃ answers m b,
    Map.run (fun z : Z => z)
      [Map.OInsert 1 10 false; Map.OInsert 1 5 false; Map.OErase 2;
       Map.OContains 1] (Map.Map 2) = Some (answers, m) ∧
    Map.Contains (fun z : Z => z) 1 m = Some b ∧
    (b = true ↔
     Map.inserted_last 1
       [Map.OInsert 1 10 false; Map.OInsert 1 5 false; Map.OErase 2;
        Map.OContains (V:=Z) 1] answers).
Proof.
  split; [lia|]. apply (Contains_iff_inserted_last (fun z : Z => z) 2). lia.
Defined.

(** ** Erase *)

(** C5. On a well-formed table whose counter is the number of nodes:
    [Erase] of an absent key answers [false] and leaves the table, hence
    [Size()], as it is; [Erase] of a present key answers [true], unlinks
    the one node with that key (one node less, the key is no longer
    contained, every other key is found as before) and makes [Size()]
    smaller by exactly 1; a second [Erase] of that key answers [false].
    The same holds for the set. *)
Theorem Erase_idempotent {K V : Type} `{EqDecision K} (hash_ : K → Z)
    (m : Map.t K V) (s : HashSet.t K) (ka kp : K) :
  Map.wf hash_ m → Map.counted m →
  HashSet.wf hash_ s → HashSet.counted s →
  Map.Contains hash_ ka m = Some false → Map.Contains hash_ kp m = Some true →
  HashSet.Contains hash_ ka s = Some false →
  HashSet.Contains hash_ kp s = Some true →
  Map.Erase hash_ ka m = Some (false, m) ∧
  (∃ m', Map.Erase hash_ kp m = Some (true, m') ∧
         Map.Size m' = Map.Size m - 1 ∧
         Map.live_nodes m = S (Map.live_nodes m') ∧
         Map.Contains hash_ kp m' = Some false ∧
         (∀ k', k' ≠ kp → Map.Find hash_ k' m' = Map.Find hash_ k' m) ∧
         Map.Erase hash_ kp m' = Some (false, m')) ∧
  HashSet.Erase hash_ ka s = Some (false, s) ∧
  (∃ s', HashSet.Erase hash_ kp s = Some (true, s') ∧
         HashSet.Size s' = HashSet.Size s - 1 ∧
         HashSet.live_nodes s = S (HashSet.live_nodes s') ∧
         HashSet.Contains hash_ kp s' = Some false ∧
         (∀ w, w ≠ kp → HashSet.Contains hash_ w s' = HashSet.Contains hash_ w s) ∧
         HashSet.Erase hash_ kp s' = Some (false, s')).
Proof.
  intros Hwf Hcnt Hwfs Hcnts Ha Hp Has Hps. split_and!.
  - by apply Erase_missing.
  - destruct (Erase_present hash_ kp m Hp) as (m' & He & Hf & Hsz & Hlive & Hne);
      [apply Hwf|].
    pose proof (Contains_of_Find hash_ _ _ _ Hf) as Hc. cbn in Hc.
    exists m'. split_and!; [done| |done|done|done|by apply Erase_missing].
    rewrite Hsz. apply decr64_small. destruct Hwf as (_ & [_ Hty] & _).
    unfold Map.counted, Map.Size, is_uint64 in *. lia.
  - by apply Erase_set_missing.
  - destruct (Erase_set_present hash_ kp s Hps) as (s' & He & Hc & Hsz & Hlive & Hne);
      [apply Hwfs|].
    exists s'. split_and!; [done| |done|done|done|by apply Erase_set_missing].
    rewrite Hsz. apply decr64_small. destruct Hwfs as (_ & [_ Hty] & _).
    unfold HashSet.counted, HashSet.Size, is_uint64 in *. lia.
Qed.

Lemma Erase_idempotent_witness :
  Map.wf hash_id example_map ∧ Map.counted example_map ∧
  HashSet.wf hash_id example_set ∧ HashSet.counted example_set ∧
  Map.Contains hash_id 3 example_map = Some false ∧
  Map.Contains hash_id 1 example_map = Some true ∧
  HashSet.Contains hash_id 3 example_set = Some false ∧
  HashSet.Contains hash_id 1 example_set = Some true ∧
  ∃ m', Map.Erase hash_id 1 example_map = Some (true, m') ∧
        Map.Size m' = Map.Size example_map - 1 ∧
        Map.live_nodes example_map = S (Map.live_nodes m') ∧
        Map.Contains hash_id 1 m' = Some false ∧
        (∀ k', k' ≠ 1 → Map.Find hash_id k' m' = Map.Find hash_id k' example_map) ∧
        Map.Erase hash_id 1 m' = Some (false, m').
Proof.
  pose proof example_map_wf as Hm. pose proof example_map_counted as Hc.
  pose proof example_set_wf as Hs. pose proof example_set_counted as Hcs.
  assert (Map.Contains hash_id 3 example_map = Some false) as Ha by reflexivity.
  assert (Map.Contains hash_id 1 example_map = Some true) as Hp by reflexivity.
  assert (HashSet.Contains hash_id 3 example_set = Some false) as Has
    by reflexivity.
  assert (HashSet.Contains hash_id 1 example_set = Some true) as Hps
    by reflexivity.
  split_and!; try done.
  apply (Erase_idempotent hash_id example_map example_set 3 1
           Hm Hc Hs Hcs Ha Hp Has Hps).
Defined.

(** ** An rvalue argument *)

Lemma insert_rvalue_twice_eq (hash_ : string → Z) :
  ∃ h : nat,
    (h < 2)%nat ∧
    insert_rvalue_twice hash_ =
      Some (HashSet.mkSet 2 2 (<[h := ["aboba"; "aboba"]]> [[]; []])).
Proof.
  assert (∃ h : nat, (h < 2)%nat ∧
            ∀ cnt d, HashSet.index hash_ EmptyString (HashSet.mkSet 2 cnt d) = h)
    as (h & Hh & Hidx).
  { exists (Z.to_nat (hash_ EmptyString mod 2)). split; [|done].
    pose proof (Z.mod_pos_bound (hash_ EmptyString) 2). lia. }
  assert (∀ cnt d c, d !! h = Some c →
            HashSet.bucket_of hash_ (HashSet.forwarded true "aboba")
              (HashSet.mkSet 2 cnt d) = Some (h, c)) as Hbucket.
  { intros cnt d c Hc. unfold HashSet.bucket_of.
    change (HashSet.forwarded true "aboba") with EmptyString.
    rewrite Hidx. cbn [HashSet.size_ HashSet.data_].
    rewrite decide_False by done. cbn zeta. by rewrite Hc. }
  exists h. split; [done|]. unfold insert_rvalue_twice.
  rewrite (Insert_appends hash_ true "aboba" (HashSet.Set_ 2) h []).
  - cbn [mbind option_bind HashSet.size_ HashSet.count_ HashSet.data_ HashSet.Set_].
    rewrite (Insert_appends hash_ true "aboba" _ h ["aboba"]).
    + destruct h as [|[|h']]; [done|done|lia].
    + apply Hbucket. destruct h as [|[|h']]; [done|done|lia].
    + change (HashSet.forwarded true "aboba") with EmptyString.
      rewrite not_elem_of_cons. split; [done|apply not_elem_of_nil].
  - apply Hbucket. destruct h as [|[|h']]; [done|done|lia].
  - apply not_elem_of_nil.
Qed.

(** C3 (where the code departs from it). [Set<std::string> set(2)] and
    twice [set.Insert(std::string("aboba"))]: both calls hash and compare
    the string they have already moved into the new node, so the second
    call does not meet the first node and appends another one.  For every
    hash function [Size()] is 2 afterwards, the number of nodes, while one
    distinct value was inserted. *)
Theorem Size_counts_rvalue_twice (hash_ : string → Z) :
  ∃ s, insert_rvalue_twice hash_ = Some s ∧
       HashSet.Size s = 2 ∧
       HashSet.counted s ∧
       HashSet.nodes s = ["aboba"; "aboba"] ∧
       length (remove_dups (HashSet.nodes s)) = 1%nat.
Proof.
  destruct (insert_rvalue_twice_eq hash_) as (h & Hh & ->).
  eexists. split; [done|].
  destruct h as [|[|h']]; [by vm_compute|by vm_compute|lia].
Qed.

(** C6 (where the code departs from it). After the same two calls one
    chain of the set holds the value "aboba" in two nodes, for every hash
    function: [Set::Insert] compares the nodes of the chain with the
    string it has moved from, not with the one it appends. *)
Theorem chain_holds_rvalue_twice (hash_ : string → Z) :
  ∃ s, insert_rvalue_twice hash_ = Some s ∧
       ["aboba"; "aboba"] ∈ HashSet.data_ s ∧
       ¬ HashSet.no_duplicates s.
Proof.
  destruct (insert_rvalue_twice_eq hash_) as (h & Hh & ->).
  eexists. split; [done|].
  assert (["aboba"; "aboba"] ∈
            HashSet.data_ (HashSet.mkSet 2 2 (<[h := ["aboba"; "aboba"]]> [[]; []])))
    as Hin.
  { cbn [HashSet.data_]. apply list_elem_of_lookup. exists h.
    destruct h as [|[|h']]; [done|done|lia]. }
  split; [done|]. intros Hnd.
  unfold HashSet.no_duplicates in Hnd. rewrite Forall_forall in Hnd.
  apply Hnd in Hin. apply NoDup_cons in Hin as [Hnot _].
  apply Hnot, elem_of_cons. by left.
Qed.

(** ** Inserting a present key *)

(** C4 (as the code has it). When [k] is present in the map,
    [Insert(k, v, false)] answers [false] and leaves the table, hence the
    value stored for [k], as it is, and [Insert(k, v, true)] answers
    [true], stores [v] for [k] and changes neither [Size()] nor the value
    of another key.  Re-inserting a present value into the set, with an
    argument that the forward leaves as it is, leaves the set as it is;
    [Set::Insert] is [void] and hands nothing back. *)
Theorem Insert_present_key {K V : Type} `{EqDecision K} `{Move K}
    (hash_ : K → Z) (m : Map.t K V) (s : HashSet.t K) (k : K) (v v0 : V)
    (rvalue : bool) :
  Map.Find hash_ k m = Some (Some v0) →
  HashSet.Contains hash_ k s = Some true →
  HashSet.forwarded rvalue k = k →
  Map.Insert hash_ k v false m = Some (false, m) ∧
  (∃ m', Map.Insert hash_ k v true m = Some (true, m') ∧
         Map.Find hash_ k m' = Some (Some v) ∧
         Map.Size m' = Map.Size m ∧
         ∀ k', k' ≠ k → Map.Find hash_ k' m' = Map.Find hash_ k' m) ∧
  HashSet.Insert hash_ rvalue k s = Some (tt, s).
Proof.
  intros Hf Hc Hfw. split_and!.
  - by eapply Insert_keep.
  - by eapply Insert_replace.
  - rewrite (Insert_intact hash_ rvalue k s Hfw). by apply Insert_set_present.
Qed.

Lemma Insert_present_key_witness :
  Map.Find hash_id 1 example_map = Some (Some 10) ∧
  HashSet.Contains hash_id 1 example_set = Some true ∧
  HashSet.forwarded true 1 = 1 ∧
  Map.Insert hash_id 1 5 false example_map = Some (false, example_map) ∧
  (∃ m', Map.Insert hash_id 1 5 true example_map = Some (true, m') ∧
         Map.Find hash_id 1 m' = Some (Some 5) ∧
         Map.Size m' = Map.Size example_map ∧
         ∀ k', k' ≠ 1 → Map.Find hash_id k' m' = Map.Find hash_id k' example_map) ∧
  HashSet.Insert hash_id true 1 example_set = Some (tt, example_set).
Proof.
  assert (Map.Find hash_id 1 example_map = Some (Some 10)) as Hf by reflexivity.
  assert (HashSet.Contains hash_id 1 example_set = Some true) as Hc
    by reflexivity.
  assert (HashSet.forwarded true 1 = 1) as Hfw by reflexivity.
  split; [done|]. split; [done|]. split; [done|].
  apply (Insert_present_key hash_id example_map example_set 1 5 10 true Hf Hc Hfw).
Defined.

(** Nothing read off what [Set::Insert] hands back says "already present"
    for the present value 1 and not for the absent value 3: both calls
    hand back the same [tt]. *)
Lemma Set_reinsert_reports_nothing :
  HashSet.Contains hash_id 1 example_set = Some true ∧
  HashSet.Contains hash_id 3 example_set = Some false ∧
  ¬ ∃ already_present : unit → bool,
      already_present <$> (fst <$> HashSet.Insert hash_id false 1 example_set)
        = Some true ∧
      already_present <$> (fst <$> HashSet.Insert hash_id false 3 example_set)
        = Some false.
Proof.
  split_and!; [done..|]. intros (report & Hpresent & Habsent).
  vm_compute in Hpresent, Habsent. congruence.
Qed.

(** ** The answer of [Set::Insert] *)

(** C8 (as the code has it). [Set::Insert(value)] is [void].  With an
    argument that the forward leaves as it is: when the value is absent a
    node is created for it, the value is contained afterwards and the
    counter is incremented; when the value is already stored the call
    leaves the set as it is.  The caller gets [tt] in both cases. *)
Theorem Set_Insert_is_void {K : Type} `{EqDecision K} `{Move K}
    (hash_ : K → Z) (s : HashSet.t K) (va vp : K) (rvalue : bool) :
  HashSet.Contains hash_ va s = Some false →
  HashSet.Contains hash_ vp s = Some true →
  HashSet.forwarded rvalue va = va →
  HashSet.forwarded rvalue vp = vp →
  (∃ s', HashSet.Insert hash_ rvalue va s = Some (tt, s') ∧
         HashSet.Contains hash_ va s' = Some true ∧
         HashSet.live_nodes s' = S (HashSet.live_nodes s) ∧
         HashSet.Size s' = incr64 (HashSet.Size s)) ∧
  HashSet.Insert hash_ rvalue vp s = Some (tt, s).
Proof.
  intros Ha Hp Hfa Hfp.
  rewrite (Insert_intact hash_ rvalue va s Hfa), (Insert_intact hash_ rvalue vp s Hfp).
  split; [|by apply Insert_set_present].
  destruct (Insert_set_absent hash_ va s Ha) as (s' & Hi & Hc & Hsz & _ & Hlive & _).
  by exists s'.
Qed.

Lemma Set_Insert_is_void_witness :
  HashSet.Contains hash_id 3 example_set = Some false ∧
  HashSet.Contains hash_id 1 example_set = Some true ∧
  HashSet.forwarded true 3 = 3 ∧
  HashSet.forwarded true 1 = 1 ∧
  (∃ s', HashSet.Insert hash_id true 3 example_set = Some (tt, s') ∧
         HashSet.Contains hash_id 3 s' = Some true ∧
         HashSet.live_nodes s' = S (HashSet.live_nodes example_set) ∧
         HashSet.Size s' = incr64 (HashSet.Size example_set)) ∧
  HashSet.Insert hash_id true 1 example_set = Some (tt, example_set).
Proof.
  assert (HashSet.Contains hash_id 3 example_set = Some false) as Ha
    by reflexivity.
  assert (HashSet.Contains hash_id 1 example_set = Some true) as Hp
    by reflexivity.
  assert (HashSet.forwarded true 3 = 3) as Hfa by reflexivity.
  assert (HashSet.forwarded true 1 = 1) as Hfp by reflexivity.
  split; [done|]. split; [done|]. split; [done|]. split; [done|].
  apply (Set_Insert_is_void hash_id example_set 3 1 true Ha Hp Hfa Hfp).
Defined.

(** No reading of what [Set::Insert] returns is the bool of the interface:
    [true] for the first insertion of 7 into a fresh set and [false] for
    the second. *)
Lemma Set_Insert_answer_is_not_a_report :
  ¬ ∃ report : unit → bool,
      report <$> (fst <$> HashSet.Insert hash_id false 7 (HashSet.Set_ 2)) = Some true ∧
      report <$> (fst <$> ('(_, s) ← HashSet.Insert hash_id false 7 (HashSet.Set_ 2);
                           HashSet.Insert hash_id false 7 s)) = Some false.
Proof.
  intros (report & Hfirst & Hsecond). vm_compute in Hfirst, Hsecond.
  congruence.
Qed.

(** ** The first version of [Insert] *)

(** C10. The [Insert] of the first version (src/map.h) overwrites the value
    of a present key without condition: run from fresh tables of the same
    size, every sequence of operations of the first version and the same
    sequence on the later map with every [Insert] called with
    [replace = true] both run to their end, answer alike ([Insert] answers
    nothing there and [true] here) and leave tables on which [Find] and
    [Contains] agree for every key; and an [Insert] of the first version is
    always found again with the value it was given. *)
Theorem legacy_Insert_is_replace {K V : Type} `{EqDecision K}
    (hash_ : K → Z) (size : Z) (ops : list (LegacyMap.op K V)) :
  0 < size →
  ∃ al ml ar mr,
    LegacyMap.run hash_ ops (LegacyMap.Map size) = Some (al, ml) ∧
    Map.run hash_ (LegacyMap.upgrade <$> ops) (Map.Map size) = Some (ar, mr) ∧
    Forall2 LegacyMap.agree al ar ∧
    (∀ k, LegacyMap.Find hash_ k ml = Map.Find hash_ k mr ∧
          LegacyMap.Contains hash_ k ml = Map.Contains hash_ k mr) ∧
    (∀ k v, ∃ ml', LegacyMap.Insert hash_ k v ml = Some (tt, ml') ∧
                   LegacyMap.Find hash_ k ml' = Some (Some v)).
Proof.
  intros Hsize.
  destruct (run_Contains hash_ (LegacyMap.upgrade <$> ops) (Map.Map size))
    as (ar & mr & Hrun & Hs & _).
  { by apply Map_shaped. }
  { apply Forall_replicate, NoDup_nil_2. }
  pose proof (run_sim hash_ ops _ _ (Map_sim size)) as Hsim. rewrite Hrun in Hsim.
  destruct (LegacyMap.run hash_ ops (LegacyMap.Map size)) as [[al ml]|]; [|done].
  destruct Hsim as [Hagree Hsim]. exists al, ml, ar, mr.
  split_and!; [done..| |].
  - intros k. by apply Find_sim.
  - intros k v.
    pose proof (step_sim hash_ (LegacyMap.OInsert k v) ml mr Hsim) as Hstep.
    cbn in Hstep.
    destruct (Insert_total hash_ k v true mr Hs) as [[b mr'] Hi].
    rewrite Hi in Hstep.
    destruct (LegacyMap.Insert hash_ k v ml) as [[[] ml']|]; [|done].
    cbn in Hstep. destruct Hstep as [-> Hsim']. exists ml'. split; [done|].
    destruct (Find_sim hash_ k ml' mr' Hsim') as [-> _].
    by eapply Find_Insert_eq.
Qed.

Lemma legacy_Insert_is_replace_witness :
  0 < 2 ∧
  ∃ al ml ar mr,
    LegacyMap.run (fun z : Z => z)
      [LegacyMap.OInsert 1 10; LegacyMap.OInsert 1 5; LegacyMap.OInsert 3 7;
       LegacyMap.OErase 3; LegacyMap.OContains 1]
      (LegacyMap.Map 2) = Some (al, ml) ∧
    Map.run (fun z : Z => z)
      (LegacyMap.upgrade <$>
         [LegacyMap.OInsert 1 10; LegacyMap.OInsert 1 5; LegacyMap.OInsert 3 7;
          LegacyMap.OErase 3; LegacyMap.OContains 1])
      (Map.Map 2) = Some (ar, mr) ∧
    Forall2 LegacyMap.agree al ar ∧
    (∀ k : Z, LegacyMap.Find (fun z : Z => z) k ml = Map.Find (fun z : Z => z) k mr ∧
              LegacyMap.Contains (fun z : Z => z) k ml =
              Map.Contains (fun z : Z => z) k mr) ∧
    (∀ (k : Z) (v : Z),
       ∃ ml', LegacyMap.Insert (fun z : Z => z) k v ml = Some (tt, ml') ∧
              LegacyMap.Find (fun z : Z => z) k ml' = Some (Some v)).
Proof.
  split; [lia|]. apply (legacy_Insert_is_replace (fun z : Z => z) 2). lia.
Defined.

(** ** The reference scenario *)

Lemma scenario_observed (hash_ : string → Z) :
  scenario hash_ =
    Some (mkObserved true true (Some 5) true false None (Some 20) (Some 10)).
Proof.
  assert (Map.wf hash_ (Map.Map (K:=string) (V:=Z) 2)) as Hwf0 by by apply Map_wf.
  assert (∀ k, Map.Find hash_ k (Map.Map (V:=Z) 2) = Some None) as Hf0
    by (intros k; by apply Map_Find).
  destruct (Insert_new hash_ "aboba" 10 false _ (Hf0 _))
    as (m1 & H1 & Ha1 & _ & Hne1).
  destruct (Insert_replace hash_ "aboba" 5 10 m1 Ha1)
    as (m2 & H2 & Ha2 & _ & Hne2).
  destruct (Insert_new hash_ "zeleboba" 10 false m2)
    as (m3 & H3 & Hz3 & _ & Hne3).
  { rewrite Hne2, Hne1 by done. apply Hf0. }
  destruct (Insert_new hash_ "dassyr" 20 false m3)
    as (m4 & H4 & Hd4 & _ & Hne4).
  { rewrite Hne3, Hne2, Hne1 by done. apply Hf0. }
  assert (Map.wf hash_ m4) as Hwf4 by eauto using Insert_wf.
  destruct (Erase_present hash_ "aboba" m4)
    as (m5 & H5 & Ha5 & _ & _ & Hne5); [|apply Hwf4|].
  { apply (Contains_of_Find hash_ _ _ (Some 5)).
    by rewrite Hne4, Hne3 by done. }
  pose proof (Erase_missing hash_ "aboba" m5
    (Contains_of_Find hash_ _ _ None Ha5)) as H6.
  unfold scenario. cbn zeta.
  rewrite H1. cbn [mbind option_bind]. rewrite H2. cbn [mbind option_bind].
  rewrite Ha2. cbn [mbind option_bind]. rewrite H3. cbn [mbind option_bind].
  rewrite H4. cbn [mbind option_bind]. rewrite H5. cbn [mbind option_bind].
  rewrite H6. cbn [mbind option_bind].
  rewrite Ha5, !Hne5, Hd4, Hne4, Hz3 by done. done.
Qed.

(** C9 (as the code has it). On a [Map] constructed with 2 buckets and for
    every hash function, the sequence Insert("aboba",10),
    Insert("aboba",5,replace=true), Insert("zeleboba",10),
    Insert("dassyr",20), Erase("aboba"), Erase("aboba") yields: both first
    inserts answer true, Find("aboba") after them is 5, the first
    Erase("aboba") answers true and the second false, then Find("aboba") is
    empty, Find("dassyr") is 20 and Find("zeleboba") is 10, the only value
    that was inserted for it. *)
Theorem scenario_zeleboba_10 (hash_ : string → Z) :
  scenario hash_ =
    Some {| insert_aboba_10 := true; insert_aboba_5 := true;
            find_aboba_inserted := Some 5;
            erase_aboba_1 := true; erase_aboba_2 := false;
            find_aboba := None; find_dassyr := Some 20;
            find_zeleboba := Some 10 |}.
Proof. apply scenario_observed. Qed.

(** No hash function makes the scenario end with Find("zeleboba") = 5. *)
Lemma scenario_zeleboba_not_5 :
  ¬ ∃ hash_ : string → Z,
      scenario hash_ =
        Some {| insert_aboba_10 := true; insert_aboba_5 := true;
                find_aboba_inserted := Some 5;
                erase_aboba_1 := true; erase_aboba_2 := false;
                find_aboba := None; find_dassyr := Some 20;
                find_zeleboba := Some 5 |}.
Proof. intros [hash_ Hs]. by rewrite scenario_observed in Hs. Qed.

(** * The containers against a standard mapping and a standard set *)

Section refinement.
Context {K V : Type} `{EqDecision K}.
Variable hash_ : K -> Z.
Implicit Types (m : Map.t K V) (f : K → option V).

Lemma step_refines (o : Map.op K V) m f :
  represents hash_ m f → Map.no_duplicates m →
  ∃ b m', Map.step hash_ o m = Some (b, m') ∧ b = (Model.step o f).1 ∧
          represents hash_ m' (Model.step o f).2 ∧ Map.no_duplicates m'.
Proof.
  intros Hrep Hnd. destruct o as [k v r|k|k]; cbn [Map.step Model.step].
  - pose proof (Hrep k) as Hk. unfold Model.present.
    destruct (f k) as [v0|] eqn:Hfk.
    + rewrite bool_decide_eq_true_2 by eauto. destruct r; cbn.
      * destruct (Insert_replace hash_ k v v0 m Hk) as (m' & Hi & Hf & _ & Hne).
        exists true, m'.
        split_and!; [done|done| |by eapply Insert_no_duplicates].
        intros k'. unfold Model.put. case_decide as E; [by subst|].
        rewrite Hne by done. apply Hrep.
      * exists false, m. by rewrite (Insert_keep hash_ k v v0 m Hk).
    + rewrite bool_decide_eq_false_2 by (by intros [? [=]]). cbn.
      destruct (Insert_new hash_ k v r m Hk) as (m' & Hi & Hf & _ & Hne).
      exists true, m'.
      split_and!; [done|done| |by eapply Insert_no_duplicates].
      intros k'. unfold Model.put. case_decide as E; [by subst|].
      rewrite Hne by done. apply Hrep.
  - pose proof (Contains_of_Find hash_ _ _ _ (Hrep k)) as Hc.
    fold (Model.present k f) in Hc. destruct (Model.present k f) eqn:Hp.
    + destruct (Erase_present hash_ k m Hc Hnd) as (m' & He & Hf & _ & _ & Hne).
      exists true, m'.
      split_and!; [done|done| |by eapply Erase_no_duplicates].
      intros k'. cbn [snd]. unfold Model.remove. case_decide as E; [by subst|].
      rewrite Hne by done. apply Hrep.
    + exists false, m. rewrite (Erase_missing hash_ k m Hc).
      split_and!; [done..| |done].
      intros k'. cbn [snd]. unfold Model.remove. case_decide as E; [|apply Hrep].
      subst k'. rewrite (Find_of_Contains_false hash_ k m Hc). done.
  - pose proof (Contains_of_Find hash_ _ _ _ (Hrep k)) as Hc. rewrite Hc.
    by exists (Model.present k f), m.
Qed.

Lemma run_refines (ops : list (Map.op K V)) : ∀ m f,
  represents hash_ m f → Map.no_duplicates m →
  ∃ answers m',
    Map.run hash_ ops m = Some (answers, m') ∧
    answers = (Model.run ops f).1 ∧
    represents hash_ m' (Model.run ops f).2 ∧ Map.no_duplicates m'.
Proof.
  induction ops as [|o ops IH]; intros m f Hrep Hnd.
  - by exists [], m.
  - destruct (step_refines o m f Hrep Hnd) as (b & m1 & Hstep & Hb & Hrep1 & Hnd1).
    cbn [Map.run Model.run]. rewrite Hstep. cbn [mbind option_bind].
    destruct (Model.step o f) as [b' f1]. cbn [fst snd] in *. subst b'.
    destruct (IH m1 f1 Hrep1 Hnd1) as (bs & m2 & Hrun & Hbs & Hrep2 & Hnd2).
    rewrite Hrun. cbn [mbind option_bind].
    destruct (Model.run ops f1) as [bs' f2]. cbn [fst snd] in *. subst bs'.
    by exists (b :: bs), m2.
Qed.

Lemma represents_content m :
  Map.shaped m →
  represents hash_ m (fun k => default None (Map.Find hash_ k m)).
Proof.
  intros Hs k. destruct (Find_Some hash_ k m Hs) as (c & _ & Hf & _).
  by rewrite Hf.
Qed.

End refinement.

Section set_refinement.
Context {V : Type} `{EqDecision V} {move : Move V}.
Variable hash_ : V -> Z.
Implicit Types (s : HashSet.t V) (g : V → bool).

Lemma set_step_refines (o : SetOps.op V) s g :
  SetOps.intact o →
  SetOps.represents hash_ s g → HashSet.no_duplicates s →
  ∃ b s', SetOps.step hash_ o s = Some (b, s') ∧ b = (SetOps.model_step o g).1 ∧
          SetOps.represents hash_ s' (SetOps.model_step o g).2 ∧
          HashSet.no_duplicates s'.
Proof.
  intros Hin Hrep Hnd.
  destruct o as [v|v|v|v]; cbn [SetOps.step SetOps.model_step];
    pose proof (Hrep v) as Hv.
  2: { cbn in Hin. rewrite (Insert_intact hash_ true v s Hin).
       destruct (g v) eqn:Hg.
       + rewrite (Insert_set_present hash_ v s Hv). exists None, s.
         split_and!; [done..| |done]. intros w. cbn [snd].
         case_decide as E; [by subst|apply Hrep].
       + destruct (Insert_set_absent hash_ v s Hv) as (s' & Hi & Hc & _ & _ & _ & Hne).
         rewrite Hi. exists None, s'.
         split_and!; [done..| |by eapply Insert_set_no_duplicates].
         intros w. cbn [snd]. case_decide as E; [by subst|].
         rewrite Hne by done. apply Hrep. }
  - destruct (g v) eqn:Hg.
    + rewrite (Insert_set_present hash_ v s Hv). exists None, s.
      split_and!; [done..| |done]. intros w. cbn [snd].
      case_decide as E; [by subst|apply Hrep].
    + destruct (Insert_set_absent hash_ v s Hv) as (s' & Hi & Hc & _ & _ & _ & Hne).
      rewrite Hi. exists None, s'.
      split_and!; [done..| |by eapply Insert_set_no_duplicates].
      intros w. cbn [snd]. case_decide as E; [by subst|].
      rewrite Hne by done. apply Hrep.
  - destruct (g v) eqn:Hg.
    + destruct (Erase_set_present hash_ v s Hv Hnd) as (s' & He & Hc & _ & _ & Hne).
      rewrite He. exists (Some true), s'.
      split_and!; [done..| |by eapply Erase_set_no_duplicates].
      intros w. cbn [snd]. case_decide as E; [by subst|].
      rewrite Hne by done. apply Hrep.
    + rewrite (Erase_set_missing hash_ v s Hv). exists (Some false), s.
      split_and!; [done..| |done]. intros w. cbn [snd].
      case_decide as E; [by subst|apply Hrep].
  - rewrite Hv. by exists (Some (g v)), s.
Qed.

Lemma set_run_refines (ops : list (SetOps.op V)) : ∀ s g,
  Forall SetOps.intact ops →
  SetOps.represents hash_ s g → HashSet.no_duplicates s →
  ∃ answers s',
    SetOps.run hash_ ops s = Some (answers, s') ∧
    answers = (SetOps.model_run ops g).1 ∧
    SetOps.represents hash_ s' (SetOps.model_run ops g).2 ∧
    HashSet.no_duplicates s'.
Proof.
  induction ops as [|o ops IH]; intros s g Hin Hrep Hnd.
  - by exists [], s.
  - apply Forall_cons in Hin as [Hin1 Hin].
    destruct (set_step_refines o s g Hin1 Hrep Hnd)
      as (b & s1 & Hstep & Hb & Hrep1 & Hnd1).
    cbn [SetOps.run SetOps.model_run]. rewrite Hstep. cbn [mbind option_bind].
    destruct (SetOps.model_step o g) as [b' g1]. cbn [fst snd] in *. subst b'.
    destruct (IH s1 g1 Hin Hrep1 Hnd1) as (bs & s2 & Hrun & Hbs & Hrep2 & Hnd2).
    rewrite Hrun. cbn [mbind option_bind].
    destruct (SetOps.model_run ops g1) as [bs' g2]. cbn [fst snd] in *. subst bs'.
    by exists (b :: bs), s2.
Qed.

Lemma set_represents_content s :
  HashSet.shaped s →
  SetOps.represents hash_ s (fun v => default false (HashSet.Contains hash_ v s)).
Proof.
  intros Hs%shaped_to_map v. rewrite <-Contains_to_map.
  destruct (Find_Some hash_ v _ Hs) as (c & _ & _ & Hc). by rewrite Hc.
Qed.

Lemma Set_Contains n v :
  0 < n → HashSet.Contains hash_ v (HashSet.Set_ n) = Some false.
Proof.
  intros Hn. rewrite <-Contains_to_map, Set_to_map. by apply Map_Contains.
Qed.

End set_refinement.

(** ** The map is a mapping *)

(** X1. A table without duplicate keys that holds the mapping [f] runs
    every sequence of Insert/Erase/Contains to its end, answers as the
    standard mapping does from [f], and holds the mapping the standard one
    ends with: [Find] returns the value of the last [Insert] that took
    effect for a key, and nothing once the key was erased.  A fresh table
    with at least one bucket holds the empty mapping. *)
Theorem Map_refines_mapping {K V : Type} `{EqDecision K} (hash_ : K → Z)
    (m : Map.t K V) (f : K → option V) (ops : list (Map.op K V)) (n : Z) :
  represents hash_ m f → Map.no_duplicates m → 0 < n →
  (∃ answers m',
     Map.run hash_ ops m = Some (answers, m') ∧
     answers = (Model.run ops f).1 ∧
     represents hash_ m' (Model.run ops f).2) ∧
  represents hash_ (Map.Map (V:=V) n) (fun _ => None).
Proof.
  intros Hrep Hnd Hn. split.
  - destruct (run_refines hash_ ops m f Hrep Hnd) as (a & m' & ? & ? & ? & _).
    by exists a, m'.
  - intros k. by apply Map_Find.
Qed.

Lemma Map_refines_mapping_witness :
  represents hash_id (Map.Map (V:=Z) 2) (fun _ => None) ∧
  Map.no_duplicates (Map.Map (K:=Z) (V:=Z) 2) ∧ 0 < 2 ∧
  ∃ answers m',
    Map.run hash_id
      [Map.OInsert 1 10 false; Map.OInsert 1 5 false; Map.OInsert 1 7 true;
       Map.OErase 3] (Map.Map 2) = Some (answers, m') ∧
    answers =
      (Model.run [Map.OInsert 1 10 false; Map.OInsert 1 5 false;
                  Map.OInsert 1 7 true; Map.OErase 3] (fun _ => None)).1 ∧
    represents hash_id m'
      (Model.run [Map.OInsert 1 10 false; Map.OInsert 1 5 false;
                  Map.OInsert 1 7 true; Map.OErase 3] (fun _ => None)).2.
Proof.
  assert (represents hash_id (Map.Map (V:=Z) 2) (fun _ => None)) as Hrep
    by (intros k; by apply Map_Find).
  pose proof (Map_no_duplicates (K:=Z) (V:=Z) 2) as Hnd.
  assert (0 < 2) as Hn by lia.
  split_and!; try done.
  apply (Map_refines_mapping hash_id (Map.Map 2) (fun _ => None) _ 2 Hrep Hnd Hn).
Defined.

(** X3. The first version of the map is a mapping whose [Insert] always
    binds: from a fresh table with at least one bucket every sequence runs
    to its end, [Erase] and [Contains] answer as the standard mapping does,
    and [Find] returns the value of the last [Insert] of a key unless an
    [Erase] of the key came after it. *)
Theorem LegacyMap_refines_mapping {K V : Type} `{EqDecision K}
    (hash_ : K → Z) (n : Z) (ops : list (LegacyMap.op K V)) :
  0 < n →
  ∃ answers m,
    LegacyMap.run hash_ ops (LegacyMap.Map n) = Some (answers, m) ∧
    Forall2 LegacyMap.agree answers
      (Model.run (LegacyMap.upgrade <$> ops) (fun _ => None)).1 ∧
    legacy_represents hash_ m
      (Model.run (LegacyMap.upgrade <$> ops) (fun _ => None)).2.
Proof.
  intros Hn.
  destruct (run_refines hash_ (LegacyMap.upgrade <$> ops) (Map.Map n)
              (fun _ => None)) as (ar & mr & Hrun & Har & Hrep & _).
  { intros k. by apply Map_Find. }
  { apply Map_no_duplicates. }
  pose proof (run_sim hash_ ops _ _ (Map_sim n)) as Hsim. rewrite Hrun in Hsim.
  destruct (LegacyMap.run hash_ ops (LegacyMap.Map n)) as [[al ml]|]; [|done].
  destruct Hsim as [Hagree Hsim]. exists al, ml. split_and!; [done| |].
  - by rewrite <-Har.
  - intros k. destruct (Find_sim hash_ k ml mr Hsim) as [-> _]. apply Hrep.
Qed.

Lemma LegacyMap_refines_mapping_witness :
  0 < 2 ∧
  ∃ answers m,
    LegacyMap.run hash_id
      [LegacyMap.OInsert 1 10; LegacyMap.OInsert 1 5; LegacyMap.OErase 3;
       LegacyMap.OContains 1] (LegacyMap.Map 2) = Some (answers, m) ∧
    Forall2 LegacyMap.agree answers
      (Model.run (LegacyMap.upgrade <$>
                    [LegacyMap.OInsert 1 10; LegacyMap.OInsert 1 5;
                     LegacyMap.OErase 3; LegacyMap.OContains 1])
                 (fun _ => None)).1 ∧
    legacy_represents hash_id m
      (Model.run (LegacyMap.upgrade <$>
                    [LegacyMap.OInsert 1 10; LegacyMap.OInsert 1 5;
                     LegacyMap.OErase 3; LegacyMap.OContains 1])
                 (fun _ => None)).2.
Proof.
  split; [lia|]. apply (LegacyMap_refines_mapping hash_id 2). lia.
Defined.

(** X4. A set without duplicates that holds the set [g] runs to its end
    every sequence of Insert/Erase/Contains whose [Insert]s are called with
    an argument that the forward leaves as it is, answers [Erase] and
    [Contains] as the standard set does from [g], and holds the set the
    standard one ends with.  A fresh set with at least one bucket holds
    the empty set. *)
Theorem Set_refines_set {V : Type} `{EqDecision V} `{Move V} (hash_ : V → Z)
    (s : HashSet.t V) (g : V → bool) (ops : list (SetOps.op V)) (n : Z) :
  Forall SetOps.intact ops →
  SetOps.represents hash_ s g → HashSet.no_duplicates s → 0 < n →
  (∃ answers s',
     SetOps.run hash_ ops s = Some (answers, s') ∧
     answers = (SetOps.model_run ops g).1 ∧
     SetOps.represents hash_ s' (SetOps.model_run ops g).2) ∧
  SetOps.represents hash_ (HashSet.Set_ n) (fun _ => false).
Proof.
  intros Hin Hrep Hnd Hn. split.
  - destruct (set_run_refines hash_ ops s g Hin Hrep Hnd) as (a & s' & ? & ? & ? & _).
    by exists a, s'.
  - intros v. by apply Set_Contains.
Qed.

Lemma Set_refines_set_witness :
  Forall SetOps.intact
    [SetOps.OInsert 1; SetOps.OInsertRvalue 1; SetOps.OInsertRvalue 2;
     SetOps.OErase 1; SetOps.OErase 1; SetOps.OContains 1] ∧
  SetOps.represents hash_id (HashSet.Set_ 2) (fun _ => false) ∧
  HashSet.no_duplicates (HashSet.Set_ (V:=Z) 2) ∧ 0 < 2 ∧
  ∃ answers s',
    SetOps.run hash_id
      [SetOps.OInsert 1; SetOps.OInsertRvalue 1; SetOps.OInsertRvalue 2;
       SetOps.OErase 1; SetOps.OErase 1; SetOps.OContains 1]
      (HashSet.Set_ 2) = Some (answers, s') ∧
    answers =
      (SetOps.model_run
         [SetOps.OInsert 1; SetOps.OInsertRvalue 1; SetOps.OInsertRvalue 2;
          SetOps.OErase 1; SetOps.OErase 1; SetOps.OContains 1]
         (fun _ => false)).1 ∧
    SetOps.represents hash_id s'
      (SetOps.model_run
         [SetOps.OInsert 1; SetOps.OInsertRvalue 1; SetOps.OInsertRvalue 2;
          SetOps.OErase 1; SetOps.OErase 1; SetOps.OContains 1]
         (fun _ => false)).2.
Proof.
  assert (Forall (SetOps.intact (V:=Z))
            [SetOps.OInsert 1; SetOps.OInsertRvalue 1; SetOps.OInsertRvalue 2;
             SetOps.OErase 1; SetOps.OErase 1; SetOps.OContains 1]) as Hin
    by (repeat constructor).
  assert (SetOps.represents hash_id (HashSet.Set_ 2) (fun _ => false)) as Hrep
    by (intros v; by apply Set_Contains).
  assert (HashSet.no_duplicates (HashSet.Set_ (V:=Z) 2)) as Hnd
    by apply Forall_replicate, NoDup_nil_2.
  assert (0 < 2) as Hn by lia.
  split_and!; try done.
  apply (Set_refines_set hash_id (HashSet.Set_ 2) (fun _ => false) _ 2
           Hin Hrep Hnd Hn).
Defined.

(** ** The lookups agree *)

(** X5. [Contains(key)] answers [true] exactly when [Find(key)]
    ([operator[]]) returns a value, and is undefined exactly when [Find]
    is, on every table, in the map with a flag and in the first version
    of the map. *)
Theorem Contains_agrees_with_Find {K V : Type} `{EqDecision K}
    (hash_ : K → Z) (m : Map.t K V) (ml : LegacyMap.t K V) (k : K) :
  Map.Contains hash_ k m =
    (fun o => bool_decide (is_Some o)) <$> Map.Find hash_ k m ∧
  LegacyMap.Contains hash_ k ml =
    (fun o => bool_decide (is_Some o)) <$> LegacyMap.Find hash_ k ml.
Proof.
  split; [apply Contains_Find|].
  assert (LegacyMap.sim ml
            (Map.mkMap (LegacyMap.size_ ml) 0 (LegacyMap.up <$> LegacyMap.data_ ml)))
    as Hsim by by split.
  destruct (Find_sim hash_ k ml _ Hsim) as [-> ->]. apply Contains_Find.
Qed.

(** ** Insert and Erase of a new key *)

Section round_trip.
Context {K V : Type} `{EqDecision K}.
Variable hash_ : K -> Z.
Implicit Types (k : K) (v : V) (c : list (Map.Node K V)) (m : Map.t K V).

Lemma chain_insert_fresh k v r c :
  k ∉ Map.keys c →
  Map.chain_insert k v r c = (Created, c ++ [Map.mkNode k v]).
Proof.
  induction c as [|n c IH]; [done|]. rewrite keys_cons, not_elem_of_cons.
  intros [Hne Hout]. cbn [Map.chain_insert]. rewrite decide_False by done.
  by rewrite IH.
Qed.

Lemma chain_erase_last k v c :
  k ∉ Map.keys c → Map.chain_erase k (c ++ [Map.mkNode k v]) = Some c.
Proof.
  induction c as [|n c IH].
  - intros _. cbn. by rewrite decide_True.
  - rewrite keys_cons, not_elem_of_cons. intros [Hne Hout]. cbn.
    rewrite decide_False by done. by rewrite IH.
Qed.

Lemma decr64_incr64 z : is_uint64 z → decr64 (incr64 z) = z.
Proof.
  intros Hz. unfold decr64, incr64. rewrite Zminus_mod_idemp_l.
  replace (z + 1 - 1) with z by lia. by apply Z.mod_small.
Qed.

Lemma Insert_Erase_new k v r m :
  Map.Contains hash_ k m = Some false → is_uint64 (Map.count_ m) →
  ∃ m1, Map.Insert hash_ k v r m = Some (true, m1) ∧
        Map.Erase hash_ k m1 = Some (true, m).
Proof.
  unfold Map.Contains, Map.Insert.
  destruct (Map.bucket_of hash_ k m) as [[h c]|] eqn:Hb; [|done].
  cbn [mbind option_bind]. intros [= Hc] Hty.
  rewrite chain_contains_keys in Hc. apply bool_decide_eq_false in Hc.
  apply bucket_of_Some in Hb as (Hsz & -> & Hh).
  rewrite (chain_insert_fresh k v r c Hc). eexists. split; [done|].
  unfold Map.Erase. rewrite (bucket_of_store hash_ k m _ c) by done.
  rewrite decide_True by done. cbn [mbind option_bind].
  rewrite (chain_erase_last k v c Hc). cbn [Map.size_ Map.count_ Map.data_].
  rewrite decr64_incr64, list_insert_insert_eq, list_insert_id by done.
  by destruct m.
Qed.

End round_trip.

(** X7. Inserting a key that is absent and erasing it again gives back the
    very table one started from, bucket for bucket and with the same
    counter: [Insert] answers [true] and the [Erase] after it answers
    [true].  The same holds for the set when the argument of [Insert] is
    one that the forward leaves as it is. *)
Theorem Insert_then_Erase_restores {K V : Type} `{EqDecision K} `{Move K}
    (hash_ : K → Z) (m : Map.t K V) (s : HashSet.t K) (k : K) (v : V)
    (replace rvalue : bool) :
  Map.Contains hash_ k m = Some false → is_uint64 (Map.count_ m) →
  HashSet.Contains hash_ k s = Some false → is_uint64 (HashSet.count_ s) →
  HashSet.forwarded rvalue k = k →
  (∃ m1, Map.Insert hash_ k v replace m = Some (true, m1) ∧
         Map.Erase hash_ k m1 = Some (true, m)) ∧
  (∃ s1, HashSet.Insert hash_ rvalue k s = Some (tt, s1) ∧
         HashSet.Erase hash_ k s1 = Some (true, s)).
Proof.
  intros Hc Hty Hcs Htys Hfw. split; [by apply Insert_Erase_new|].
  rewrite (Insert_intact hash_ rvalue k s Hfw).
  destruct (Insert_set_absent hash_ k s Hcs) as (s1 & Hi & _).
  exists s1. split; [done|].
  destruct (Insert_set_Some hash_ _ _ _ _ Hi) as [b Hm].
  destruct (Insert_Erase_new hash_ k tt false (HashSet.to_map s))
    as (m1 & Hi' & He); [by rewrite Contains_to_map|done|].
  rewrite Hm in Hi'. injection Hi' as _ <-.
  rewrite Erase_to_map in He.
  destruct (HashSet.Erase hash_ k s1) as [[b' s2]|]; [|done]. cbn in He.
  assert (b' = true ∧ HashSet.to_map s2 = HashSet.to_map s)
    as [-> ->%to_map_inj] by (split; congruence).
  done.
Qed.

Lemma Insert_then_Erase_restores_witness :
  Map.Contains hash_id 3 example_map = Some false ∧
  is_uint64 (Map.count_ example_map) ∧
  HashSet.Contains hash_id 3 example_set = Some false ∧
  is_uint64 (HashSet.count_ example_set) ∧
  HashSet.forwarded true 3 = 3 ∧
  (∃ m1, Map.Insert hash_id 3 30 false example_map = Some (true, m1) ∧
         Map.Erase hash_id 3 m1 = Some (true, example_map)) ∧
  (∃ s1, HashSet.Insert hash_id true 3 example_set = Some (tt, s1) ∧
         HashSet.Erase hash_id 3 s1 = Some (true, example_set)).
Proof.
  assert (Map.Contains hash_id 3 example_map = Some false) as Hc by reflexivity.
  assert (is_uint64 (Map.count_ example_map)) as Hty by done.
  assert (HashSet.Contains hash_id 3 example_set = Some false) as Hcs
    by reflexivity.
  assert (is_uint64 (HashSet.count_ example_set)) as Htys by done.
  assert (HashSet.forwarded true 3 = 3) as Hfw by reflexivity.
  pose proof (Insert_then_Erase_restores hash_id example_map example_set 3 30
                false true Hc Hty Hcs Htys Hfw) as [Hm Hs].
  split_and!; [exact Hc|exact Hty|exact Hcs|exact Htys|exact Hfw|exact Hm|exact Hs].
Defined.

(** ** The bucket count *)

Section bucket_count.
Context {K V : Type} `{EqDecision K} {move : Move K}.
Variable hash_ : K -> Z.

Lemma step_size (o : Map.op K V) m b m' :
  Map.step hash_ o m = Some (b, m') →
  Map.size_ m' = Map.size_ m ∧
  length (Map.data_ m') = length (Map.data_ m).
Proof.
  destruct o as [k v r|k|k]; cbn [Map.step].
  - intros (c & _ & _ & _ & ->)%Insert_Some. cbn. by rewrite length_insert.
  - intros (c & _ & _ & He)%Erase_Some.
    destruct (Map.chain_erase k c); destruct He as [_ ->]; [|done].
    cbn. by rewrite length_insert.
  - destruct (Map.Contains hash_ k m); [|done]. by intros [= _ <-].
Qed.

Lemma run_size (ops : list (Map.op K V)) : ∀ m,
  Map.shaped m →
  ∃ answers m',
    Map.run hash_ ops m = Some (answers, m') ∧
    length answers = length ops ∧
    Map.size_ m' = Map.size_ m ∧
    length (Map.data_ m') = length (Map.data_ m).
Proof.
  induction ops as [|o ops IH]; intros m Hs.
  - by exists [], m.
  - destruct (step_total hash_ o m Hs) as [[b m1] Hstep].
    destruct (step_size _ _ _ _ Hstep) as [Hsz Hlen].
    destruct (IH m1 (step_shaped hash_ _ _ _ _ Hstep Hs))
      as (bs & m2 & Hrun & Hbs & Hsz2 & Hlen2).
    exists (b :: bs), m2. cbn [Map.run]. rewrite Hstep. cbn. rewrite Hrun. cbn.
    split_and!; [done|by rewrite Hbs|congruence|congruence].
Qed.

Lemma set_step_size (o : SetOps.op K) (s : HashSet.t K) b s' :
  SetOps.step hash_ o s = Some (b, s') →
  HashSet.size_ s' = HashSet.size_ s ∧
  length (HashSet.data_ s') = length (HashSet.data_ s).
Proof.
  destruct o as [v|v|v|v]; cbn [SetOps.step].
  - destruct (HashSet.Insert hash_ false v s) as [[u s1]|] eqn:Hi; [|done].
    intros [= _ <-]. by eapply Insert_any_size.
  - destruct (HashSet.Insert hash_ true v s) as [[u s1]|] eqn:Hi; [|done].
    intros [= _ <-]. by eapply Insert_any_size.
  - unfold HashSet.Erase.
    destruct (HashSet.bucket_of hash_ v s) as [[h c]|]; [|done]. cbn.
    destruct (HashSet.chain_erase v c); cbn; intros [= _ <-]; [|done].
    cbn. by rewrite length_insert.
  - destruct (HashSet.Contains hash_ v s); [|done]. by intros [= _ <-].
Qed.

Lemma set_step_total (o : SetOps.op K) (s : HashSet.t K) :
  HashSet.shaped s → is_Some (SetOps.step hash_ o s).
Proof.
  intros Hs. destruct o as [v|v|v|v]; cbn [SetOps.step].
  - destruct (Insert_any_total hash_ false v s Hs) as [s' ->]. by eexists.
  - destruct (Insert_any_total hash_ true v s Hs) as [s' ->]. by eexists.
  - destruct (Erase_set_total hash_ v s Hs) as [[b s'] ->]. by eexists.
  - rewrite (set_represents_content hash_ s Hs v). by eexists.
Qed.

Lemma set_run_size (ops : list (SetOps.op K)) : ∀ s : HashSet.t K,
  HashSet.shaped s →
  ∃ answers s',
    SetOps.run hash_ ops s = Some (answers, s') ∧
    length answers = length ops ∧
    HashSet.size_ s' = HashSet.size_ s ∧
    length (HashSet.data_ s') = length (HashSet.data_ s).
Proof.
  induction ops as [|o ops IH]; intros s Hs.
  - by exists [], s.
  - destruct (set_step_total o s Hs) as [[b s1] Hstep].
    destruct (set_step_size _ _ _ _ Hstep) as [Hsz Hlen].
    destruct (IH s1) as (bs & s2 & Hrun & Hbs & Hsz2 & Hlen2).
    { destruct Hs as [Hpos Hl]. split; [by rewrite Hsz|by rewrite Hsz, Hlen]. }
    exists (b :: bs), s2. cbn [SetOps.run]. rewrite Hstep. cbn. rewrite Hrun. cbn.
    split_and!; [done|by rewrite Hbs|congruence|congruence].
Qed.

End bucket_count.

(** X9. The bucket count is fixed outside [Resize]: on a table with a
    bucket for every index below [size_ > 0], every sequence of
    Insert/Erase/Contains runs to its end with one answer per operation
    and leaves [size_] and the length of the bucket vector as they were.
    The same holds for the set. *)
Theorem bucket_count_is_fixed {K V : Type} `{EqDecision K} `{Move K}
    (hash_ : K → Z) (m : Map.t K V) (s : HashSet.t K)
    (ops : list (Map.op K V)) (sops : list (SetOps.op K)) :
  Map.shaped m → HashSet.shaped s →
  (∃ answers m',
     Map.run hash_ ops m = Some (answers, m') ∧
     length answers = length ops ∧
     Map.size_ m' = Map.size_ m ∧
     length (Map.data_ m') = length (Map.data_ m)) ∧
  (∃ answers s',
     SetOps.run hash_ sops s = Some (answers, s') ∧
     length answers = length sops ∧
     HashSet.size_ s' = HashSet.size_ s ∧
     length (HashSet.data_ s') = length (HashSet.data_ s)).
Proof.
  intros Hs Hss. split; [by apply run_size|by apply set_run_size].
Qed.

Lemma bucket_count_is_fixed_witness :
  Map.shaped example_map ∧ HashSet.shaped example_set ∧
  (∃ answers m',
     Map.run hash_id [Map.OInsert 4 40 false; Map.OInsert 6 60 false; Map.OErase 2]
       example_map = Some (answers, m') ∧
     length answers = 3%nat ∧
     Map.size_ m' = 2 ∧ length (Map.data_ m') = 2%nat) ∧
  (∃ answers s',
     SetOps.run hash_id [SetOps.OInsert 4; SetOps.OErase 1] example_set
       = Some (answers, s') ∧
     length answers = 2%nat ∧
     HashSet.size_ s' = 2 ∧ length (HashSet.data_ s') = 2%nat).
Proof.
  pose proof (proj1 example_map_wf) as Hs.
  pose proof (proj1 example_set_wf) as Hss.
  pose proof (bucket_count_is_fixed hash_id example_map example_set
                [Map.OInsert 4 40 false; Map.OInsert 6 60 false; Map.OErase 2]
                [SetOps.OInsert 4; SetOps.OErase 1] Hs Hss) as [Hm Hset].
  split; [exact Hs|]. split; [exact Hss|]. split; [exact Hm|exact Hset].
Defined.

(** ** Operations on different keys *)

Section commute.
Context {K V : Type} `{EqDecision K}.
Implicit Types (o : Map.op K V) (f : K → option V).

Lemma model_step_other o f k :
  k ≠ Model.key_of o → (Model.step o f).2 k = f k.
Proof.
  destruct o as [k' v r|k'|k']; cbn [Model.step Model.key_of snd]; intros Hne.
  - destruct (Model.present k' f && negb r); cbn [snd]; [done|].
    unfold Model.put. by rewrite decide_False.
  - unfold Model.remove. by rewrite decide_False.
  - done.
Qed.

Lemma model_step_local o f f' :
  f (Model.key_of o) = f' (Model.key_of o) →
  (Model.step o f).1 = (Model.step o f').1 ∧
  (Model.step o f).2 (Model.key_of o) = (Model.step o f').2 (Model.key_of o).
Proof.
  destruct o as [k v r|k|k]; cbn [Model.step Model.key_of fst snd];
    unfold Model.present; intros Hk; rewrite Hk.
  - destruct (bool_decide (is_Some (f' k)) && negb r); cbn [fst snd]; [done|].
    unfold Model.put. by rewrite !decide_True.
  - unfold Model.remove. by rewrite !decide_True.
  - done.
Qed.

Lemma model_step_commute o1 o2 f :
  Model.key_of o1 ≠ Model.key_of o2 →
  (Model.step o1 (Model.step o2 f).2).1 = (Model.step o1 f).1 ∧
  (Model.step o2 (Model.step o1 f).2).1 = (Model.step o2 f).1 ∧
  ∀ k, (Model.step o2 (Model.step o1 f).2).2 k =
       (Model.step o1 (Model.step o2 f).2).2 k.
Proof.
  intros Hne.
  pose proof (model_step_other o2 f (Model.key_of o1) Hne) as H12.
  pose proof (model_step_other o1 f (Model.key_of o2) (not_eq_sym Hne)) as H21.
  destruct (model_step_local o1 _ _ H12) as [Ha1 Hs1].
  destruct (model_step_local o2 _ _ H21) as [Ha2 Hs2].
  split_and!; [done..|]. intros k.
  destruct (decide (k = Model.key_of o1)) as [->|Hk1].
  - by rewrite (model_step_other o2), Hs1 by done.
  - destruct (decide (k = Model.key_of o2)) as [->|Hk2].
    + by rewrite Hs2, (model_step_other o1) by done.
    + by rewrite !model_step_other by done.
Qed.

End commute.

(** X10. Operations on different keys commute: on a table with a bucket
    for every index and no duplicate key, two operations about different
    keys give the same two answers in either order, and the two final
    tables agree on every lookup. *)
Theorem different_keys_commute {K V : Type} `{EqDecision K} (hash_ : K → Z)
    (m : Map.t K V) (o1 o2 : Map.op K V) :
  Map.shaped m → Map.no_duplicates m →
  Model.key_of o1 ≠ Model.key_of o2 →
  ∃ a1 a2 m12 m21,
    Map.run hash_ [o1; o2] m = Some ([a1; a2], m12) ∧
    Map.run hash_ [o2; o1] m = Some ([a2; a1], m21) ∧
    ∀ k, Map.Find hash_ k m12 = Map.Find hash_ k m21.
Proof.
  intros Hs Hnd Hne.
  pose proof (represents_content hash_ m Hs) as Hrep.
  set (f := fun k => default None (Map.Find hash_ k m)) in Hrep.
  destruct (run_refines hash_ [o1; o2] m f Hrep Hnd) as (a & m12 & Hrun12 & Ha & Hrep12 & _).
  destruct (run_refines hash_ [o2; o1] m f Hrep Hnd) as (b & m21 & Hrun21 & Hb & Hrep21 & _).
  destruct (model_step_commute o1 o2 f Hne) as (Ha1 & Ha2 & Hst).
  cbn [Model.run] in Ha, Hb, Hrep12, Hrep21.
  destruct (Model.step o1 f) as [a1 f1] eqn:E1.
  destruct (Model.step o2 f) as [a2 f2] eqn:E2.
  cbn [fst snd] in *.
  destruct (Model.step o2 f1) as [a2' f12] eqn:E12.
  destruct (Model.step o1 f2) as [a1' f21] eqn:E21.
  cbn [fst snd] in *. subst a b a1' a2'.
  exists a1, a2, m12, m21. split_and!; [done..|].
  intros k. by rewrite Hrep12, Hrep21, Hst.
Qed.

Lemma different_keys_commute_witness :
  Map.shaped example_map ∧ Map.no_duplicates example_map ∧
  Model.key_of (Map.OInsert 3 30 false) ≠ Model.key_of (Map.OErase (V:=Z) 1) ∧
  ∃ a1 a2 m12 m21,
    Map.run hash_id [Map.OInsert 3 30 false; Map.OErase 1] example_map
      = Some ([a1; a2], m12) ∧
    Map.run hash_id [Map.OErase 1; Map.OInsert 3 30 false] example_map
      = Some ([a2; a1], m21) ∧
    ∀ k, Map.Find hash_id k m12 = Map.Find hash_id k m21.
Proof.
  pose proof example_map_wf as (Hs & _ & Hnd & _).
  assert (Model.key_of (Map.OInsert 3 30 false) ≠ Model.key_of (Map.OErase (V:=Z) 1))
    as Hne by done.
  split; [exact Hs|]. split; [exact Hnd|]. split; [exact Hne|].
  exact (different_keys_commute hash_id example_map _ _ Hs Hnd Hne).
Defined.

(** ** The counter *)

(** X11. [Size()] is the number of nodes of the table: this holds for a
    fresh map and a fresh set and, on a table whose counter has room for
    one more entry, it is kept by [Insert] and [Erase] of the map and of
    the set, for the set with any argument.  After a sequence of
    operations on a fresh map, [Size()] is the number of distinct keys
    whose last [Insert] answered [true] and was not followed by an
    [Erase] of that key. *)
Theorem counter_is_live_nodes {K V : Type} `{EqDecision K} `{Move K}
    (hash_ : K → Z) (m : Map.t K V) (s : HashSet.t K) (k : K) (v : V)
    (replace rvalue : bool) (n : Z) (ops : list (Map.op K V)) :
  Map.wf hash_ m → Map.counted m → Map.Size m < uint64_mod - 1 →
  HashSet.shaped s → HashSet.typed s → HashSet.counted s →
  HashSet.Size s < uint64_mod - 1 →
  0 < n < uint64_mod → Z.of_nat (length ops) < uint64_mod →
  Map.counted (Map.Map (K:=K) (V:=V) n) ∧
  HashSet.counted (HashSet.Set_ (V:=K) n) ∧
  (∃ b m', Map.Insert hash_ k v replace m = Some (b, m') ∧
           Map.wf hash_ m' ∧ Map.counted m') ∧
  (∃ b m', Map.Erase hash_ k m = Some (b, m') ∧
           Map.wf hash_ m' ∧ Map.counted m') ∧
  (∃ s', HashSet.Insert hash_ rvalue k s = Some (tt, s') ∧
         HashSet.shaped s' ∧ HashSet.typed s' ∧ HashSet.counted s') ∧
  (∃ b s', HashSet.Erase hash_ k s = Some (b, s') ∧
           HashSet.shaped s' ∧ HashSet.typed s' ∧ HashSet.counted s') ∧
  (∃ answers m' ks,
     Map.run hash_ ops (Map.Map n) = Some (answers, m') ∧
     NoDup ks ∧ (∀ k', k' ∈ ks ↔ Map.inserted_last k' ops answers) ∧
     Map.Size m' = Z.of_nat (length ks)).
Proof.
  intros Hwf Hcnt Hroom Hss Htys Hcnts Hrooms Hn Hops. split_and!.
  - apply Map_counted.
  - apply Set_counted.
  - destruct (Insert_total hash_ k v replace m (proj1 Hwf)) as [[b m'] Hi].
    exists b, m'. split_and!; [done|by eapply Insert_wf|by eapply Insert_counted].
  - destruct (Erase_total hash_ k m (proj1 Hwf)) as [[b m'] He].
    exists b, m'. split_and!; [done|by eapply Erase_wf|].
    eapply Erase_counted; [done|apply Hwf|done].
  - destruct (Insert_any_total hash_ rvalue k s Hss) as [s' Hi].
    exists s'. split_and!; [done|by eapply Insert_any_shaped|
      by eapply Insert_any_typed|by eapply Insert_any_counted].
  - destruct (Erase_set_total hash_ k s Hss) as [[b s'] He].
    pose proof (Erase_set_Some hash_ _ _ _ _ He) as Hm.
    exists b, s'. split_and!; [done| | |].
    + apply shaped_to_map. eapply Erase_shaped; [done|by apply shaped_to_map].
    + apply (proj1 (typed_to_map s')).
      eapply Erase_typed; [done|by apply (proj2 (typed_to_map s))].
    + by eapply Erase_set_counted.
  - destruct (run_fresh hash_ n ops) as (answers & m' & Hrun & _ & Hk); [lia|].
    destruct (run_counted hash_ ops _ _ _ Hrun) as [Hwf' Hcnt'].
    { by apply Map_wf. }
    { apply Map_counted. }
    { pose proof (Map_counted (K:=K) (V:=V) n) as Hc. unfold Map.counted in Hc.
      cbn [Map.count_ Map.Map] in Hc. lia. }
    exists answers, m', (Map.keys (Map.nodes m')). split_and!; [done| | |].
    + by eapply wf_nodes_NoDup.
    + intros k'. by rewrite (wf_keys_Contains hash_ k' m' Hwf'), Hk.
    + unfold Map.Size, Map.keys. rewrite length_fmap. apply Hcnt'.
Qed.

Lemma counter_is_live_nodes_witness :
  Map.wf hash_id example_map ∧ Map.counted example_map ∧
  Map.Size example_map < uint64_mod - 1 ∧
  HashSet.shaped example_set ∧ HashSet.typed example_set ∧
  HashSet.counted example_set ∧
  HashSet.Size example_set < uint64_mod - 1 ∧
  0 < 3 < uint64_mod ∧
  Z.of_nat (length [Map.OInsert 1 10 false; Map.OErase (V:=Z) 1]) < uint64_mod ∧
  ∃ s', HashSet.Insert hash_id true 3 example_set = Some (tt, s') ∧
        HashSet.shaped s' ∧ HashSet.typed s' ∧ HashSet.counted s'.
Proof.
  pose proof example_map_wf as Hm. pose proof example_map_counted as Hc.
  pose proof example_set_wf as (Hs & Hty & _). pose proof example_set_counted as Hcs.
  assert (Map.Size example_map < uint64_mod - 1) as Hr by done.
  assert (HashSet.Size example_set < uint64_mod - 1) as Hrs by done.
  assert (0 < 3 < uint64_mod) as Hn by done.
  assert (Z.of_nat (length [Map.OInsert 1 10 false; Map.OErase (V:=Z) 1])
            < uint64_mod) as Hops by done.
  split_and!; try done.
  apply (counter_is_live_nodes hash_id example_map example_set 3 5 true true 3
           [Map.OInsert 1 10 false; Map.OErase 1] Hm Hc Hr Hs Hty Hcs Hrs Hn Hops).
Defined.

(** ** Chains without duplicates *)

(** X12. In every bucket's chain at most one node holds a given key: this
    holds for fresh tables and is kept by [Insert] and [Erase] of the map,
    by [Erase] of the set and by [Insert] of the set when its argument is
    one that the forward leaves as it is. *)
Theorem no_duplicates_is_kept {K V : Type} `{EqDecision K} `{Move K}
    (hash_ : K → Z) (m : Map.t K V) (s : HashSet.t K) (k : K) (v : V)
    (replace rvalue : bool) (n : Z) :
  Map.shaped m → Map.no_duplicates m →
  HashSet.shaped s → HashSet.no_duplicates s →
  HashSet.forwarded rvalue k = k →
  Map.no_duplicates (Map.Map (K:=K) (V:=V) n) ∧
  HashSet.no_duplicates (HashSet.Set_ (V:=K) n) ∧
  (∃ b m', Map.Insert hash_ k v replace m = Some (b, m') ∧ Map.no_duplicates m') ∧
  (∃ b m', Map.Erase hash_ k m = Some (b, m') ∧ Map.no_duplicates m') ∧
  (∃ s', HashSet.Insert hash_ rvalue k s = Some (tt, s') ∧
         HashSet.no_duplicates s') ∧
  (∃ b s', HashSet.Erase hash_ k s = Some (b, s') ∧ HashSet.no_duplicates s').
Proof.
  intros Hs Hnd Hss Hnds Hfw. split_and!.
  - apply Map_no_duplicates.
  - apply Forall_replicate, NoDup_nil_2.
  - destruct (Insert_total hash_ k v replace m Hs) as [[b m'] Hi].
    exists b, m'. split; [done|by eapply Insert_no_duplicates].
  - destruct (Erase_total hash_ k m Hs) as [[b m'] He].
    exists b, m'. split; [done|by eapply Erase_no_duplicates].
  - rewrite (Insert_intact hash_ rvalue k s Hfw).
    destruct (Insert_set_total hash_ k s Hss) as [s' Hi].
    exists s'. split; [done|by eapply Insert_set_no_duplicates].
  - destruct (Erase_set_total hash_ k s Hss) as [[b s'] He].
    exists b, s'. split; [done|by eapply Erase_set_no_duplicates].
Qed.

Lemma no_duplicates_is_kept_witness :
  Map.shaped example_map ∧ Map.no_duplicates example_map ∧
  HashSet.shaped example_set ∧ HashSet.no_duplicates example_set ∧
  HashSet.forwarded true 3 = 3 ∧
  ∃ s', HashSet.Insert hash_id true 3 example_set = Some (tt, s') ∧
        HashSet.no_duplicates s'.
Proof.
  pose proof example_map_wf as (Hs & _ & Hnd & _).
  pose proof example_set_wf as (Hss & _ & Hnds & _).
  assert (HashSet.forwarded true 3 = 3) as Hfw by reflexivity.
  split_and!; try done.
  apply (no_duplicates_is_kept hash_id example_map example_set 3 5 true true 3
           Hs Hnd Hss Hnds Hfw).
Defined.

(** ** What [Set::Insert] tests *)

(** X13. On a set with a bucket for every index, [Insert] returns for
    every argument.  It tests the value as the forward has left it: when
    [Contains] of that value is [true] the set stays as it is; otherwise
    a node holding the value that was passed is put behind the chain of
    the bucket the tested value hashes to, and the counter and the number
    of nodes go up by one. *)
Theorem Set_Insert_tests_forwarded {V : Type} `{EqDecision V} `{Move V}
    (hash_ : V → Z) (s : HashSet.t V) (v : V) (rvalue : bool) :
  HashSet.shaped s →
  ∃ h c present s',
    HashSet.bucket_of hash_ (HashSet.forwarded rvalue v) s = Some (h, c) ∧
    HashSet.Contains hash_ (HashSet.forwarded rvalue v) s = Some present ∧
    HashSet.Insert hash_ rvalue v s = Some (tt, s') ∧
    s' = (if present then s
          else HashSet.mkSet (HashSet.size_ s) (incr64 (HashSet.count_ s))
                 (<[h := c ++ [v]]> (HashSet.data_ s))) ∧
    (present = false → HashSet.live_nodes s' = S (HashSet.live_nodes s)).
Proof.
  intros Hs.
  destruct (set_bucket_of_shaped hash_ (HashSet.forwarded rvalue v) s Hs)
    as [[h c] Hb].
  exists h, c, (HashSet.chain_contains (HashSet.forwarded rvalue v) c).
  unfold HashSet.Contains. rewrite Hb. cbn [mbind option_bind].
  rewrite set_chain_contains_elem.
  destruct (decide (HashSet.forwarded rvalue v ∈ c)) as [Hin|Hnot].
  - rewrite bool_decide_eq_true_2 by done. exists s.
    split_and!; [done|done| |done|done].
    unfold HashSet.Insert. cbn zeta. rewrite Hb. cbn [mbind option_bind].
    destruct (HashSet.chain_insert (HashSet.forwarded rvalue v) v c) as [c'|] eqn:E;
      [|done].
    by destruct (set_chain_insert_Some _ _ _ _ E) as [_ Hc].
  - rewrite bool_decide_eq_false_2 by done.
    pose proof (Insert_appends hash_ rvalue v s h c Hb Hnot) as Hi.
    eexists. split_and!; [done|done|exact Hi|done|]. intros _.
    destruct (Insert_any_live_nodes hash_ _ _ _ _ _ Hi) as [Heq|[_ Hl]]; [|done].
    apply set_bucket_of_Some in Hb as (_ & _ & Hc).
    apply (f_equal HashSet.data_) in Heq. cbn [HashSet.data_] in Heq.
    apply (f_equal (fun d => d !! h)) in Heq.
    rewrite list_lookup_insert_eq in Heq by (by eapply lookup_lt_Some).
    rewrite Hc in Heq. injection Heq as Heq.
    apply (f_equal length) in Heq. rewrite length_app in Heq. cbn in Heq. lia.
Qed.

Lemma Set_Insert_tests_forwarded_witness :
  HashSet.shaped (HashSet.Set_ (V:=string) 2) ∧
  ∃ h c present s',
    HashSet.bucket_of hash_length (HashSet.forwarded true "aboba") (HashSet.Set_ 2)
      = Some (h, c) ∧
    HashSet.Contains hash_length (HashSet.forwarded true "aboba") (HashSet.Set_ 2)
      = Some present ∧
    HashSet.Insert hash_length true "aboba" (HashSet.Set_ 2) = Some (tt, s') ∧
    s' = (if present then HashSet.Set_ 2
          else HashSet.mkSet (HashSet.size_ (HashSet.Set_ (V:=string) 2))
                 (incr64 (HashSet.count_ (HashSet.Set_ (V:=string) 2)))
                 (<[h := c ++ ["aboba"]]> (HashSet.data_ (HashSet.Set_ 2)))) ∧
    (present = false →
     HashSet.live_nodes s' = S (HashSet.live_nodes (HashSet.Set_ (V:=string) 2))).
Proof.
  assert (HashSet.shaped (HashSet.Set_ (V:=string) 2)) as Hs by done.
  split; [exact Hs|].
  exact (Set_Insert_tests_forwarded hash_length (HashSet.Set_ 2) "aboba" true Hs).
Defined.
